(** * Test helpers of the matter snap: a shallow embedding

    The Go packages [utils] (net.go, log.go and the configuration file) and
    [env] are embedded as functions over an explicit test state.  Everything
    the helpers obtain from the operating system (TCP dials, the output of
    shell commands, the journal, the environment, file-system errors) is read
    from a [World] of oracles, so that every theorem holds for every
    behaviour of the system under test. *)

From Stdlib Require Import ZArith String Ascii List Bool Lia DecimalString.
From stdpp Require Import base list strings gmap.

Open Scope Z_scope.

(** ** Go's [int] (64 bit) *)

Definition int_min : Z := - 2 ^ 63.
Definition int_max : Z := 2 ^ 63 - 1.

(** Two's complement wrap-around of a result that left the [int] range. *)
Definition int_wrap (z : Z) : Z := (z + 2 ^ 63) mod 2 ^ 64 - 2 ^ 63.

(** [i++] *)
Definition int_incr (i : Z) : Z := int_wrap (i + 1).

(** ** The parts of Go's [strings], [fmt] and [strconv] the helpers call *)

Module strings.

(** [strings.Contains(s, substr)]: [substr] occurs somewhere in [s]. *)
Fixpoint Contains (s substr : string) : bool :=
  String.prefix substr s ||
  match s with
  | EmptyString => false
  | String _ s' => Contains s' substr
  end.

(** [strings.Join(elems, sep)] *)
Definition Join (elems : list string) (sep : string) : string :=
  String.concat sep elems.

(** Replacement of the non-overlapping occurrences of a non-empty [old],
    scanning from the left; [skip] counts the bytes of a match that are
    still to be dropped. *)
Fixpoint replace_from (skip : nat) (s old new : string) : string :=
  match s with
  | EmptyString => EmptyString
  | String c s' =>
      match skip with
      | S k => replace_from k s' old new
      | O =>
          if String.prefix old s
          then new +:+ replace_from (Nat.pred (String.length old)) s' old new
          else String c (replace_from O s' old new)
      end
  end.

(** With an empty [old], [new] is put before every byte and at the end
    (Go does so at every rune boundary; the two agree on ASCII text). *)
Fixpoint intersperse_all (s new : string) : string :=
  match s with
  | EmptyString => new
  | String c s' => new +:+ String c (intersperse_all s' new)
  end.

(** [strings.ReplaceAll(s, old, new)] *)
Definition ReplaceAll (s old new : string) : string :=
  match old with
  | EmptyString => intersperse_all s new
  | String _ _ => replace_from O s old new
  end.

End strings.

Module fmt.

(** The verb [%d] of an [int]. *)
Definition d (z : Z) : string := NilZero.string_of_int (Z.to_int z).

End fmt.

Module strconv.

(** The error of a failed conversion ([*strconv.NumError] with
    [ErrSyntax]): the function and the rejected text. *)
Record NumError : Type := mkNumError { Func : string; Num : string }.

(** [strconv.ParseBool(str)]: the accepted spellings are 1, t, T, TRUE,
    true, True, 0, f, F, FALSE, false, False; anything else is a syntax
    error, returned next to [false]. *)
Definition ParseBool (str : string) : bool * option NumError :=
  if decide (str ∈ ["1"; "t"; "T"; "TRUE"; "true"; "True"]) then (true, None)
  else if decide (str ∈ ["0"; "f"; "F"; "FALSE"; "false"; "False"]) then (false, None)
  else (false, Some (mkNumError "ParseBool" str)).

End strconv.

(** ** The world outside the process *)

(** An [error] is represented by its message. *)
Definition error : Type := string.

(** A [net.Conn]: only its being nil or not is observed. *)
Inductive Conn : Type := TCPConn.

Record World : Type := {
  (** result of the [n]-th call (counting from 0) of
      [net.DialTimeout(network, address, _)] *)
  net_DialTimeout : nat → string → string → option Conn * option error;
  (** standard output of the [n]-th shell command run through [Exec] *)
  Exec_stdout : nat → string → string;
  (** text returned by the [n]-th call of [SnapLogs(t, since, snap)] *)
  SnapLogs_text : nat → Z → string → string;
  (** error, if any, of [os.MkdirAll(path, _)] *)
  os_MkdirAll : string → option error;
  (** error, if any, of [os.WriteFile(name, _, _)] *)
  os_WriteFile : string → option error;
  (** [os.Getenv(key)], the empty string when the variable is unset *)
  os_Getenv : string → string
}.

(** ** The test state and the monad of test code *)

(** What a run has done so far, oldest entry first, and the flag of the
    running test. *)
Record St : Type := mkSt {
  st_dials : list string;      (* addresses dialed *)
  st_execs : list string;      (* shell commands run *)
  st_snaplogs : nat;           (* calls of SnapLogs *)
  st_tlog : list string;       (* output of t.Log, t.Logf, t.Errorf, t.Fatal... *)
  st_stdlog : list string;     (* output of log.Print *)
  st_failed : bool;            (* t.Failed() of the running test *)
  st_slept : nat;              (* seconds spent in time.Sleep *)
  st_dirs : gset string;       (* directories created *)
  st_files : gmap string string (* files written, with their content *)
}.

Definition st0 : St := mkSt [] [] 0 [] [] false 0 ∅ ∅.

(** How a piece of test code ends. *)
Inductive Res (A : Type) : Type :=
| Ret (a : A)          (* it returned [a] *)
| Goexit               (* t.FailNow stopped the test function *)
| Panic (v : string)   (* panic(v) *)
| OutOfFuel.           (* the model ran out of loop iterations *)
Arguments Ret {A} a.
Arguments Goexit {A}.
Arguments Panic {A} v.
Arguments OutOfFuel {A}.

Definition M (A : Type) : Type := St → Res A * St.

#[global] Instance M_ret : MRet M := λ A a s, (Ret a, s).
#[global] Instance M_bind : MBind M := λ A B f m s,
  match m s with
  | (Ret a, s') => f a s'
  | (Goexit, s') => (Goexit, s')
  | (Panic v, s') => (Panic v, s')
  | (OutOfFuel, s') => (OutOfFuel, s')
  end.

Definition panic {A} (v : string) : M A := λ s, (Panic v, s).
Definition out_of_fuel {A} : M A := λ s, (OutOfFuel, s).

(** [for _, x := range l { body }] *)
Fixpoint range {A} (l : list A) (body : A → M unit) : M unit :=
  match l with
  | [] => mret tt
  | x :: l' => body x ;; range l' body
  end.

(** A [range] loop whose body updates local variables [vars]. *)
Fixpoint range_with {A V} (l : list A) (vars : V) (body : A → V → M V) : M V :=
  match l with
  | [] => mret vars
  | x :: l' => vars' ← body x vars; range_with l' vars' body
  end.

(** ** Go's [testing], [log], [time] and [os] over the test state *)

Definition add_tlog (msg : string) (s : St) : St :=
  mkSt (st_dials s) (st_execs s) (st_snaplogs s) (st_tlog s ++ [msg])
       (st_stdlog s) (st_failed s) (st_slept s) (st_dirs s) (st_files s).

Definition add_stdlog (msg : string) (s : St) : St :=
  mkSt (st_dials s) (st_execs s) (st_snaplogs s) (st_tlog s)
       (st_stdlog s ++ [msg]) (st_failed s) (st_slept s) (st_dirs s) (st_files s).

Definition set_failed (b : bool) (s : St) : St :=
  mkSt (st_dials s) (st_execs s) (st_snaplogs s) (st_tlog s)
       (st_stdlog s) b (st_slept s) (st_dirs s) (st_files s).

Definition add_slept (n : nat) (s : St) : St :=
  mkSt (st_dials s) (st_execs s) (st_snaplogs s) (st_tlog s)
       (st_stdlog s) (st_failed s) (st_slept s + n) (st_dirs s) (st_files s).

Definition add_dial (address : string) (s : St) : St :=
  mkSt (st_dials s ++ [address]) (st_execs s) (st_snaplogs s) (st_tlog s)
       (st_stdlog s) (st_failed s) (st_slept s) (st_dirs s) (st_files s).

Definition add_exec (cmd : string) (s : St) : St :=
  mkSt (st_dials s) (st_execs s ++ [cmd]) (st_snaplogs s) (st_tlog s)
       (st_stdlog s) (st_failed s) (st_slept s) (st_dirs s) (st_files s).

Definition add_snaplogs (s : St) : St :=
  mkSt (st_dials s) (st_execs s) (S (st_snaplogs s)) (st_tlog s)
       (st_stdlog s) (st_failed s) (st_slept s) (st_dirs s) (st_files s).

Definition add_dir (path : string) (s : St) : St :=
  mkSt (st_dials s) (st_execs s) (st_snaplogs s) (st_tlog s)
       (st_stdlog s) (st_failed s) (st_slept s) ({[path]} ∪ st_dirs s) (st_files s).

Definition put_file (name content : string) (s : St) : St :=
  mkSt (st_dials s) (st_execs s) (st_snaplogs s) (st_tlog s)
       (st_stdlog s) (st_failed s) (st_slept s) (st_dirs s)
       (<[name := content]> (st_files s)).

Module testing.

(** A [*testing.T] that is not nil; its flag and output live in [St]. *)
Record T : Type := mkT { Name : string }.

Definition Log (t : T) (msg : string) : M unit := λ s, (Ret tt, add_tlog msg s).
Definition Logf := Log.

Definition Fail (t : T) : M unit := λ s, (Ret tt, set_failed true s).
Definition Failed (t : T) : M bool := λ s, (Ret (st_failed s), s).

(** [t.FailNow()] marks the test failed and stops its goroutine. *)
Definition FailNow {A} (t : T) : M A := λ s, (Goexit, set_failed true s).

Definition Errorf (t : T) (msg : string) : M unit := Log t msg ;; Fail t.
Definition Fatal {A} (t : T) (msg : string) : M A := Log t msg ;; FailNow t.
Definition Fatalf {A} := @Fatal A.

(** [t.Run(name, f)] runs [f] as a subtest and waits for it.  A subtest
    that fails, also through [FailNow], marks its parent failed and lets
    it go on; a panic ends the whole run.  In a subtest's name Go writes
    the spaces of [name] as underscores (the suffix it adds to a repeated
    name is left out). *)
Definition Run (t : T) (name : string) (f : T → M unit) : M bool := λ s,
  let sub := mkT (Name t +:+ "/" +:+ strings.ReplaceAll name " " "_") in
  match f sub (set_failed false s) with
  | (Ret _, s') | (Goexit, s') =>
      (Ret (negb (st_failed s')), set_failed (st_failed s || st_failed s') s')
  | (Panic v, s') => (Panic v, s')
  | (OutOfFuel, s') => (OutOfFuel, s')
  end.

End testing.

Module log.
Definition Print (msg : string) : M unit := λ s, (Ret tt, add_stdlog msg s).
End log.

Module time.
(** [time.Sleep(n * time.Second)] *)
Definition Sleep (seconds : nat) : M unit := λ s, (Ret tt, add_slept seconds s).
End time.

(** Calling a method of a nil [*testing.T], or of a nil [net.Conn]. *)
Definition nil_dereference : string :=
  "runtime error: invalid memory address or nil pointer dereference".

(** How the [init] function of a package ends: the package variables are
    set, or it panics with the error of a failed conversion. *)
Inductive Init (A : Type) : Type :=
| Done (a : A)
| InitPanic (e : strconv.NumError).
Arguments Done {A} a.
Arguments InitPanic {A} e.

#[global] Instance Init_bind : MBind Init := λ A B f m,
  match m with
  | Done a => f a
  | InitPanic e => InitPanic e
  end.

(** ** Package [utils] *)

Module utils.
Import testing.

Section WithWorld.
Variable w : World.

(** *** Calls that leave the process *)

(** [net.DialTimeout(network, address, timeout)] *)
Definition DialTimeout (network address : string) (timeout : nat)
  : M (option Conn * option error) := λ s,
  (Ret (net_DialTimeout w (length (st_dials s)) network address), add_dial address s).

(** [Exec(t, cmd)] is defined outside the files at hand; of its results the
    code below uses the standard output only. *)
Definition Exec (t : T) (cmd : string) : M string := λ s,
  (Ret (Exec_stdout w (length (st_execs s)) cmd), add_exec cmd s).

(** [SnapLogs(t, since, snap)] is defined outside the files at hand. *)
Definition SnapLogs (t : T) (since : Z) (snap : string) : M string := λ s,
  (Ret (SnapLogs_text w (st_snaplogs s) since snap), add_snaplogs s).

(** [os.MkdirAll(path, perm)] *)
Definition MkdirAll (path : string) : M (option error) := λ s,
  match os_MkdirAll w path with
  | None => (Ret None, add_dir path s)
  | Some e => (Ret (Some e), s)
  end.

(** [os.WriteFile(name, data, perm)] *)
Definition WriteFile (name data : string) : M (option error) := λ s,
  match os_WriteFile w name with
  | None => (Ret None, put_file name data s)
  | Some e => (Ret (Some e), s)
  end.

(** *** net.go *)

(** [dialTimeout], in seconds *)
Definition dialTimeout : nat := 2.

Definition portService : gmap string string :=
  {[ "5550" := "chip-tool" ]}.

(** The closure [prettyPorts] of [WaitServiceOnline]. *)
Definition prettyPorts (ports : list string) : string :=
  let prettyList :=
    map (λ p, match portService !! p with
              | Some s => p +:+ " (" +:+ s +:+ ")"
              | None => p
              end) ports in
  strings.Join prettyList ", ".

(** The body of the inner loop of [WaitServiceOnline] for one port, on the
    local variables [closedPortsTemp] and [returnErr]. *)
Definition dialPort (port : string) (vars : list string * option error)
  : M (list string * option error) :=
  let '(closedPortsTemp, _) := vars in
  '(conn, err) ← DialTimeout "tcp" (":" +:+ port) dialTimeout;
  let closedPortsTemp :=
    match conn with
    | None => closedPortsTemp ++ [port]
    | Some _ => closedPortsTemp
    end in
  mret (closedPortsTemp, err).

Definition retryMessage (i maxRetry : Z) (closedPorts : list string) : string :=
  "Retry " +:+ fmt.d i +:+ "/" +:+ fmt.d maxRetry +:+ ": Waiting for ports: "
    +:+ prettyPorts closedPorts.

(** The error built after the loop of [WaitServiceOnline]. *)
Definition timeoutError (maxRetry : Z) (returnErr : option error) : error :=
  match returnErr with
  | Some e => "Time out: reached max " +:+ fmt.d maxRetry +:+ " retries. Error: " +:+ e
  | None => "Time out: reached max " +:+ fmt.d maxRetry +:+ " retries."
  end.

(** The loop [for i := 1; i <= maxRetry; i++] of [WaitServiceOnline] from
    the test of its condition on, with what follows the loop.  [fuel]
    bounds the number of times the condition is tested. *)
Fixpoint waitLoop (fuel : nat) (t : option T) (maxRetry i : Z)
    (closedPorts : list string) (returnErr : option error) : M (option error) :=
  match fuel with
  | O => out_of_fuel
  | S fuel' =>
      if i <=? maxRetry then
        let msg := retryMessage i maxRetry closedPorts in
        match t with
        | Some t => Log t msg
        | None => log.Print msg
        end ;;
        '(closedPorts, returnErr) ← range_with closedPorts ([], returnErr) dialPort;
        match closedPorts with
        | [] => mret None
        | _ :: _ =>
            time.Sleep 1 ;;
            waitLoop fuel' t maxRetry (int_incr i) closedPorts returnErr
        end
      else
        let err := timeoutError maxRetry returnErr in
        match t with
        | Some t => Fatal t err
        | None => mret (Some err)
        end
  end.

(** [WaitServiceOnline(t, maxRetry, ports...)] *)
Definition WaitServiceOnline (fuel : nat) (t : option T) (maxRetry : Z)
    (ports : list string) : M (option error) :=
  let closedPorts := ports in
  waitLoop fuel t maxRetry 1 closedPorts None.

(** [lsof(t, port)] *)
Definition lsof (t : T) (port : string) : M string :=
  Exec t ("sudo lsof -nPi :" +:+ port +:+ " || true").

(** [filterOpenPorts(t, port)] *)
Definition filterOpenPorts (t : T) (port : string) : M string :=
  stdout ← lsof t port;
  if decide (stdout = "") then Fatalf t ("Port " +:+ port +:+ " is not open")
  else mret stdout.

(** [isListenInterface(t, addr, port)] *)
Definition isListenInterface (t : T) (addr port : string) : M bool :=
  list ← filterOpenPorts t port;
  let substr := addr +:+ ":" +:+ port +:+ " (LISTEN)" in
  Logf t ("Looking for '" +:+ substr +:+ "'") ;;
  mret (strings.Contains list substr).

(** The body of the loop of [requireListenAllInterfaces] for one port. *)
Definition checkAllInterfaces (t : T) (mustListen : bool) (port : string) : M unit :=
  isListenInterface t "*" port ≫= λ isListening : bool,
  if mustListen && negb isListening then
    Errorf t ("Port " +:+ port +:+ " not listening to all interfaces")
  else if negb mustListen && isListening then
    Errorf t ("Port " +:+ port +:+ " is listening to all interfaces")
  else mret tt.

(** [requireListenAllInterfaces(t, mustListen, ports...)] *)
Definition requireListenAllInterfaces (t : T) (mustListen : bool)
    (ports : list string) : M unit :=
  if decide (length ports = 0%nat) then panic "No ports given as input"
  else
    range ports (checkAllInterfaces t mustListen) ;;
    Failed t ≫= λ failed : bool,
    if failed then FailNow t else mret tt.

(** The body of the loop of [requireListenLoopback] for one port. *)
Definition checkLoopback (t : T) (port : string) : M unit :=
  isListenInterface t "127.0.0.1" port ≫= λ listening : bool,
  if negb listening then
    Errorf t ("Port " +:+ port +:+ " is not restricted to listen on loopback interface")
  else mret tt.

(** [requireListenLoopback(t, ports...)] *)
Definition requireListenLoopback (t : T) (ports : list string) : M unit :=
  if decide (length ports = 0%nat) then panic "No ports given as input"
  else
    range ports (checkLoopback t) ;;
    Failed t ≫= λ failed : bool,
    if failed then FailNow t else mret tt.

(** [RequirePortAvailable(t, port)] *)
Definition RequirePortAvailable (t : T) (port : string) : M unit :=
  stdout ← lsof t port;
  if decide (stdout = "") then Logf t ("Port " +:+ port +:+ " is available.")
  else Fatalf t ("Port " +:+ port +:+ " is not available").

(** [testOpenPorts(t, snapName, ports)]; with the budget of 60 rounds the
    condition of the loop is tested at most 61 times. *)
Definition testOpenPorts (t : T) (snapName : string) (ports : list string) : M unit :=
  Run t "ports open" (λ t, WaitServiceOnline 61 (Some t) 60 ports ;; mret tt) ;;
  mret tt.

(** [testBindLoopback(t, snapName, ports)] *)
Definition testBindLoopback (t : T) (snapName : string) (ports : list string) : M unit :=
  WaitServiceOnline 61 (Some t) 60 ports ;;
  Run t "ports not listening on all interfaces"
    (λ t, requireListenAllInterfaces t false ports) ;;
  Run t "ports listening on localhost"
    (λ t, requireListenLoopback t ports) ;;
  mret tt.

(** *** log.go *)

(** [logFileName(t, label)] *)
Definition logFileName (t : option T) (label : string) : M string :=
  let fileName := label +:+ ".log" in
  let fileName :=
    match t with
    | Some t => strings.ReplaceAll (Name t) "/" "-" +:+ "-" +:+ fileName
    | None => fileName
    end in
  let logDirectory := "logs" in
  err ← MkdirAll logDirectory;
  match err, t with
  | Some _, Some t => Fatalf t "Can't create log directory"
  | Some _, None => panic nil_dereference
  | None, _ => mret tt
  end ;;
  mret (logDirectory +:+ "/" +:+ fileName).

(** [WriteLogFile(t, label, content)] *)
Definition WriteLogFile (t : option T) (label content : string) : M (option error) :=
  name ← logFileName t label;
  WriteFile name content.

(** The line [WaitForLogMessage] logs at each attempt. *)
Definition attemptMessage (i maxRetry : Z) (expectedLog : string) : string :=
  "Retry " +:+ fmt.d i +:+ "/" +:+ fmt.d maxRetry
    +:+ ": Waiting for expected content in logs: " +:+ expectedLog.

(** The loop [for i := 1; i <= maxRetry; i++] of [WaitForLogMessage], with
    the [t.Fatalf] that follows it. *)
Fixpoint logLoop (fuel : nat) (t : T) (snap expectedLog : string) (since : Z)
    (maxRetry i : Z) : M unit :=
  match fuel with
  | O => out_of_fuel
  | S fuel' =>
      if i <=? maxRetry then
        time.Sleep 1 ;;
        Logf t (attemptMessage i maxRetry expectedLog) ;;
        logs ← SnapLogs t since snap;
        if strings.Contains logs expectedLog then
          Logf t ("Found expected content in logs: " +:+ expectedLog)
        else logLoop fuel' t snap expectedLog since maxRetry (int_incr i)
      else
        Fatalf t ("Time out: reached max " +:+ fmt.d maxRetry +:+ " retries.")
  end.

(** [WaitForLogMessage(t, snap, expectedLog, since)]; the constant bound of
    the loop lets eleven tests of its condition suffice. *)
Definition WaitForLogMessage (t : T) (snap expectedLog : string) (since : Z) : M unit :=
  let maxRetry := 10 in
  logLoop 11 t snap expectedLog since maxRetry 1.

(** *** The configuration file of the package *)

Definition serviceChannelEnv : string := "SERVICE_CHANNEL".
Definition localServiceSnapEnv : string := "LOCAL_SERVICE_SNAP".
Definition fullConfigTestEnv : string := "FULL_CONFIG_TEST".
Definition skipTeardownRemovalEnv : string := "SKIP_TEARDOWN_REMOVAL".

(** The package variables. *)
Record Globals : Type := mkGlobals {
  ServiceChannel : string;
  LocalServiceSnapPath : string;
  FullConfigTest : bool;
  SkipTeardownRemoval : bool
}.

(** Their values before [init] runs. *)
Definition defaults : Globals := mkGlobals "latest/edge" "" false false.

(** [init()], from the variables as they are to either the variables it
    leaves or the error it panics with. *)
Definition init (g : Globals) : Init Globals :=
  g ← (let v := os_Getenv w serviceChannelEnv in
       if decide (v ≠ "") then
         Done (mkGlobals v (LocalServiceSnapPath g) (FullConfigTest g) (SkipTeardownRemoval g))
       else Done g);
  g ← (let v := os_Getenv w localServiceSnapEnv in
       if decide (v ≠ "") then
         Done (mkGlobals (ServiceChannel g) v (FullConfigTest g) (SkipTeardownRemoval g))
       else Done g);
  g ← (let v := os_Getenv w fullConfigTestEnv in
       if decide (v ≠ "") then
         let '(b, err) := strconv.ParseBool v in
         let g := mkGlobals (ServiceChannel g) (LocalServiceSnapPath g) b (SkipTeardownRemoval g) in
         match err with
         | Some e => InitPanic e
         | None => Done g
         end
       else Done g);
  let v := os_Getenv w skipTeardownRemovalEnv in
  if decide (v ≠ "") then
    let '(b, err) := strconv.ParseBool v in
    let g := mkGlobals (ServiceChannel g) (LocalServiceSnapPath g) (FullConfigTest g) b in
    match err with
    | Some e => InitPanic e
    | None => Done g
    end
  else Done g.

End WithWorld.
End utils.

(** ** Package [env] *)

Module env.
Section WithWorld.
Variable w : World.

Definition envSnapChannel : string := "SNAP_CHANNEL".
Definition envSnapPath : string := "SNAP_PATH".
Definition envTeardown : string := "TEARDOWN".

(** The package variables. *)
Record Globals : Type := mkGlobals {
  snapChannel : string;
  snapPath : string;
  teardown : bool
}.

(** Their values before [init] runs. *)
Definition defaults : Globals := mkGlobals "latest/edge" "" true.

(** [loadEnvVars()] *)
Definition loadEnvVars (g : Globals) : Init Globals :=
  g ← (let v := os_Getenv w envSnapChannel in
       if decide (v ≠ "") then Done (mkGlobals v (snapPath g) (teardown g))
       else Done g);
  g ← (let v := os_Getenv w envSnapPath in
       if decide (v ≠ "") then Done (mkGlobals (snapChannel g) v (teardown g))
       else Done g);
  let v := os_Getenv w envTeardown in
  if decide (v ≠ "") then
    let '(b, err) := strconv.ParseBool v in
    let g := mkGlobals (snapChannel g) (snapPath g) b in
    match err with
    | Some e => InitPanic e
    | None => Done g
    end
  else Done g.

(** [init()] *)
Definition init (g : Globals) : Init Globals := loadEnvVars g.

(** [SnapChannel()], [SnapPath()] and [Teardown()] *)
Definition SnapChannel (g : Globals) : string := snapChannel g.
Definition SnapPath (g : Globals) : string := snapPath g.
Definition Teardown (g : Globals) : bool := teardown g.

End WithWorld.
End env.

(** ** Observations on a world, used to state the theorems *)

Module rounds.
Section WithWorld.
Variable w : World.

(** The address [WaitServiceOnline] dials for a port. *)
Definition addr (port : string) : string := ":" +:+ port.

(** The outcome of dialing [port] as the [n]-th dial. *)
Definition dial (n : nat) (port : string) : option Conn * option error :=
  net_DialTimeout w n "tcp" (addr port).

(** The entries of [l] whose dial finds no connection, when they are dialed
    in order and the first of these dials is the [n]-th. *)
Fixpoint still_closed (n : nat) (l : list string) : list string :=
  match l with
  | [] => []
  | p :: l' =>
      match fst (dial n p) with
      | None => p :: still_closed (S n) l'
      | Some _ => still_closed (S n) l'
      end
  end.

(** The error of the last of these dials, [err] if there is none. *)
Fixpoint last_err (n : nat) (l : list string) (err : option error) : option error :=
  match l with
  | [] => err
  | p :: l' => last_err (S n) l' (snd (dial n p))
  end.

(** The pending list after [k] rounds that start from the list [l] with
    [n] dials made before. *)
Fixpoint pending (n : nat) (l : list string) (k : nat) : list string :=
  match k with
  | O => l
  | S k' => pending (n + length l) (still_closed n l) k'
  end.

(** The number of dials made before round [k + 1]. *)
Fixpoint dials_before (n : nat) (l : list string) (k : nat) : nat :=
  match k with
  | O => n
  | S k' => dials_before (n + length l) (still_closed n l) k'
  end.

(** The ports dialed by [k] rounds, in order: each round dials the list
    pending when it starts. *)
Fixpoint dial_trace (n : nat) (l : list string) (k : nat) : list string :=
  match k with
  | O => []
  | S k' => l ++ dial_trace (n + length l) (still_closed n l) k'
  end.

(** The value of [returnErr] after [k] rounds. *)
Fixpoint err_after (n : nat) (l : list string) (err : option error) (k : nat)
  : option error :=
  match k with
  | O => err
  | S k' => err_after (n + length l) (still_closed n l) (last_err n l err) k'
  end.

(** The lines logged by [k] rounds of which the first has the counter [i]. *)
Fixpoint retry_log (maxRetry i : Z) (n : nat) (l : list string) (k : nat)
  : list string :=
  match k with
  | O => []
  | S k' =>
      utils.retryMessage i maxRetry l
        :: retry_log maxRetry (i + 1) (n + length l) (still_closed n l) k'
  end.

(** A port whose dial never finds a connection. *)
Definition never_opens (port : string) : Prop :=
  ∀ n, fst (dial n port) = None.

End WithWorld.
End rounds.

(** The state [s] after more dials, log lines and seconds of sleep. *)
Definition grow (s : St) (dials tlog stdlog : list string) (slept : nat)
    (failed : bool) : St :=
  mkSt (st_dials s ++ dials) (st_execs s) (st_snaplogs s) (st_tlog s ++ tlog)
       (st_stdlog s ++ stdlog) failed (st_slept s + slept) (st_dirs s) (st_files s).

(** Lines written through [t.Log] when there is a [t], through [log.Print]
    otherwise. *)
Definition to_tlog (t : option testing.T) (msgs : list string) : list string :=
  match t with Some _ => msgs | None => [] end.
Definition to_stdlog (t : option testing.T) (msgs : list string) : list string :=
  match t with Some _ => [] | None => msgs end.

(** The same observations on tagged entries: each entry [e] of a list stands
    for the port [port_of e].  With the entries of a port list tagged by
    their position, a port that is listed twice gives two entries. *)
Module entries.
Section WithWorld.
Variable w : World.
Context {A : Type} (port_of : A → string).

Fixpoint still_closed (n : nat) (l : list A) : list A :=
  match l with
  | [] => []
  | e :: l' =>
      match fst (rounds.dial w n (port_of e)) with
      | None => e :: still_closed (S n) l'
      | Some _ => still_closed (S n) l'
      end
  end.

Fixpoint pending (n : nat) (l : list A) (k : nat) : list A :=
  match k with
  | O => l
  | S k' => pending (n + length l) (still_closed n l) k'
  end.

End WithWorld.

(** The entries of a port list, tagged by their position. *)
Definition tagged (ports : list string) : list (nat * string) :=
  imap (λ i p, (i, p)) ports.

End entries.

(** What the binding checks see of the socket listing. *)
Module listing.

(** The shell command [lsof] runs for a port. *)
Definition command (port : string) : string :=
  "sudo lsof -nPi :" +:+ port +:+ " || true".

(** The text [isListenInterface] looks for. *)
Definition token (addr port : string) : string :=
  addr +:+ ":" +:+ port +:+ " (LISTEN)".

(** The listing of [port] when it is the [n]-th command run. *)
Definition out (w : World) (n : nat) (port : string) : string :=
  Exec_stdout w n (command port).

(** The state after [isListenInterface] has listed [port] and found the
    listing not empty, and after [filterOpenPorts] has found it empty. *)
Definition looked (addr port : string) (s : St) : St :=
  add_tlog ("Looking for '" +:+ token addr port +:+ "'") (add_exec (command port) s).
Definition not_open (port : string) (s : St) : St :=
  set_failed true (add_tlog ("Port " +:+ port +:+ " is not open") (add_exec (command port) s)).

(** The state after the body of a checking loop has dealt with a listed
    port: it reports [msg] when the listing is [bad]. *)
Definition checked (addr port : string) (bad : bool) (msg : string) (s : St) : St :=
  if bad then set_failed true (add_tlog msg (looked addr port s))
  else looked addr port s.

End listing.

(** What [WaitForLogMessage] does to the state. *)
Module attempts.

(** The lines logged by [k] attempts of which the first has the counter [i]. *)
Fixpoint lines (maxRetry i : Z) (expectedLog : string) (k : nat) : list string :=
  match k with
  | O => []
  | S k' => utils.attemptMessage i maxRetry expectedLog
              :: lines maxRetry (i + 1) expectedLog k'
  end.

(** The state [s] after [k] attempts, each with a second of sleep and a
    reading of the journal, that logged [tlog]. *)
Definition after (s : St) (k : nat) (tlog : list string) (failed : bool) : St :=
  mkSt (st_dials s) (st_execs s) (st_snaplogs s + k) (st_tlog s ++ tlog)
       (st_stdlog s) failed (st_slept s + k) (st_dirs s) (st_files s).

End attempts.

(** [s] with every byte [old] replaced by [new]. *)
Fixpoint replace_byte (old new : ascii) (s : string) : string :=
  match s with
  | EmptyString => EmptyString
  | String c s' => String (if decide (c = old) then new else c) (replace_byte old new s')
  end.

(** A variable that is set to something other than a boolean. *)
Definition malformed (v : string) : Prop :=
  v ≠ "" ∧ (strconv.ParseBool v).2 ≠ None.

(** The value of a setting: that of its variable when it is set and not
    empty, the default otherwise. *)
Definition override {A} (v : string) (value default : A) : A :=
  if decide (v = "") then default else value.

(** ** Sample worlds and runs, used to instantiate the theorems *)

Module samples.

(** Nothing listens on port 8080; every other port accepts connections.
    Port 9090 is bound to the loopback interface, port 7070 to all
    interfaces, and nothing else is listed.  The journal holds the start-up
    line from the third reading on, and no variable is set. *)
Definition world_8080_closed : World := {|
  net_DialTimeout := λ _ _ address,
    if decide (address = ":8080")
    then (None, Some "dial tcp :8080: connect: connection refused")
    else (Some TCPConn, None);
  Exec_stdout := λ _ cmd,
    if decide (cmd = "sudo lsof -nPi :9090 || true")
    then "chip-tool 812 root 7u IPv4 TCP 127.0.0.1:9090 (LISTEN)"
    else if decide (cmd = "sudo lsof -nPi :7070 || true")
    then "chip-tool 812 root 8u IPv6 TCP *:7070 (LISTEN)"
    else "";
  SnapLogs_text := λ n _ _,
    if decide (n < 2)%nat then "starting" else "starting; CHIP:SPT: Server Listening";
  os_MkdirAll := λ _, None;
  os_WriteFile := λ _, None;
  os_Getenv := λ _, ""
|}.

(** The first dial ever made fails and every later one connects, as when
    the service starts listening during the first round. *)
Definition world_late_start : World := {|
  net_DialTimeout := λ n _ _,
    match n with
    | O => (None, Some "connect: connection refused")
    | S _ => (Some TCPConn, None)
    end;
  Exec_stdout := λ _ _, "";
  SnapLogs_text := λ _ _ _, "";
  os_MkdirAll := λ _, None;
  os_WriteFile := λ _, None;
  os_Getenv := λ _, ""
|}.

(** A world whose environment sets every variable, one boolean badly. *)
Definition world_env (FULL : string) : World := {|
  net_DialTimeout := λ _ _ _, (Some TCPConn, None);
  Exec_stdout := λ _ _, "";
  SnapLogs_text := λ _ _ _, "";
  os_MkdirAll := λ _, None;
  os_WriteFile := λ _, None;
  os_Getenv := λ key,
    if decide (key = "SERVICE_CHANNEL") then "latest/beta"
    else if decide (key = "SNAP_CHANNEL") then "latest/beta"
    else if decide (key = "FULL_CONFIG_TEST") then FULL
    else if decide (key = "TEARDOWN") then "false"
    else ""
|}.

Definition T1 : testing.T := testing.mkT "T1".

End samples.

(** ** The rest of net.go *)

Module net.
Import testing utils.

(** [type Net struct] *)
Record Net : Type := mkNet {
  StartSnap : bool;
  TestOpenPorts : list string;
  TestBindLoopback : list string
}.

(** The loop of [ServicePort] over the entries of the map, in the order in
    which the [range] yields them. *)
Fixpoint firstPort (entries : list (string * string)) (serviceName : string)
  : option string :=
  match entries with
  | [] => None
  | (p, s) :: rest =>
      if decide (s = serviceName) then Some p else firstPort rest serviceName
  end.

(** [ServicePort(serviceName)].  Go ranges over a map in an order it does
    not specify: [order] is the order of this call. *)
Definition ServicePort (order : list (string * string)) (serviceName : string)
  : M string :=
  match firstPort order serviceName with
  | Some p => mret p
  | None => panic ("Found no port number for service: " +:+ serviceName)
  end.

(** [conn.Close()]; on a nil [net.Conn] the call panics.  The error it
    returns is not used. *)
Definition Close (conn : option Conn) : M unit :=
  match conn with
  | Some _ => mret tt
  | None => panic nil_dereference
  end.

Section WithWorld.
Variable w : World.

(** The body of the loop of [requirePortOpen] for one port. *)
Definition checkPortOpen (t : T) (port : string) : M unit :=
  '(conn, err) ← DialTimeout w "tcp" (":" +:+ port) dialTimeout;
  match err with
  | Some e => Close conn ;; Errorf t ("Port " +:+ port +:+ " is not open: " +:+ e)
  | None => mret tt
  end ;;
  match conn with
  | None => Errorf t ("Port " +:+ port +:+ " is not open")
  | Some _ => mret tt
  end ;;
  match conn with
  | Some _ => Logf t ("Port " +:+ port +:+ " is open.") ;; Close conn
  | None => mret tt
  end.

(** [requirePortOpen(t, ports...)] *)
Definition requirePortOpen (t : T) (ports : list string) : M unit :=
  if decide (length ports = 0%nat) then panic "No ports given as input"
  else
    range ports (checkPortOpen t) ;;
    Failed t ≫= λ failed : bool,
    if failed then FailNow t else mret tt.

(** [SnapStart(t, name)] and [SnapStop(t, name)] are defined outside the
    files at hand. *)
Variables SnapStart SnapStop : T → string → M unit.

(** [t.Run(name, f)] for an [f] that has registered [cleanup] through
    [t.Cleanup]: the cleanup runs when [f] is over, however it ended, and
    its failures are those of the subtest. *)
Definition RunCleanup (t : T) (name : string) (f cleanup : T → M unit) : M bool := λ s,
  let sub := mkT (Name t +:+ "/" +:+ strings.ReplaceAll name " " "_") in
  match f sub (set_failed false s) with
  | (Ret _, s1) | (Goexit, s1) =>
      match cleanup sub s1 with
      | (Ret _, s2) | (Goexit, s2) =>
          (Ret (negb (st_failed s2)), set_failed (st_failed s || st_failed s2) s2)
      | (Panic v, s2) => (Panic v, s2)
      | (OutOfFuel, s2) => (OutOfFuel, s2)
      end
  | (Panic v, s1) => (Panic v, (cleanup sub s1).2)
  | (OutOfFuel, s1) => (OutOfFuel, s1)
  end.

(** The function [TestNet] runs as the subtest "net", after the
    registration of the cleanup. *)
Definition netTests (snapName : string) (conf : Net) (t : T) : M unit :=
  (if StartSnap conf then SnapStart t snapName else mret tt) ;;
  (if decide (0 < length (TestOpenPorts conf))%nat
   then testOpenPorts w t snapName (TestOpenPorts conf) else mret tt) ;;
  (if decide (0 < length (TestBindLoopback conf))%nat
   then testBindLoopback w t snapName (TestBindLoopback conf) else mret tt).

(** [TestNet(t, snapName, conf)] *)
Definition TestNet (t : T) (snapName : string) (conf : Net) : M unit :=
  (if StartSnap conf
   then RunCleanup t "net" (netTests snapName conf) (λ t, SnapStop t snapName)
   else Run t "net" (netTests snapName conf)) ;;
  mret tt.

End WithWorld.
End net.

(** What a checking loop of the binding checks reports for the ports [l],
    the first of which is listed by the [n]-th command: a line for each
    listing it looks into, followed by [msg] when the listing is [bad]; and
    whether some listing is bad. *)
Module report.
Section WithWorld.
Variable w : World.
Variables (addr : string) (bad : string → string → bool) (msg : string → string).

Fixpoint lines (n : nat) (l : list string) : list string :=
  match l with
  | [] => []
  | p :: l' =>
      ("Looking for '" +:+ listing.token addr p +:+ "'")
        :: (if bad p (listing.out w n p) then [msg p] else []) ++ lines (S n) l'
  end.

Fixpoint flagged (n : nat) (l : list string) : bool :=
  match l with
  | [] => false
  | p :: l' => bad p (listing.out w n p) || flagged (S n) l'
  end.

End WithWorld.

(** The state [s] after more commands and log lines. *)
Definition after (s : St) (cmds tlog : list string) (failed : bool) : St :=
  mkSt (st_dials s) (st_execs s ++ cmds) (st_snaplogs s) (st_tlog s ++ tlog)
       (st_stdlog s) failed (st_slept s) (st_dirs s) (st_files s).

(** What the two binding checks take for a bad listing, and report. *)
Definition bad_all (mustListen : bool) (p o : string) : bool :=
  xorb mustListen (strings.Contains o (listing.token "*" p)).
Definition msg_all (mustListen : bool) (p : string) : string :=
  if mustListen
  then "Port " +:+ p +:+ " not listening to all interfaces"
  else "Port " +:+ p +:+ " is listening to all interfaces".
Definition bad_loopback (p o : string) : bool :=
  negb (strings.Contains o (listing.token "127.0.0.1" p)).
Definition msg_loopback (p : string) : string :=
  "Port " +:+ p +:+ " is not restricted to listen on loopback interface".

End report.

(** * Proofs *)

Import utils testing rounds.

Ltac munfold := unfold mbind, M_bind, mret, M_ret in *.

(** ** The string functions *)

Lemma prefix_app sub : ∀ s, String.prefix sub s = true ↔ ∃ b, s = sub +:+ b.
Proof.
  induction sub as [|c sub IH]; intros s.
  - split; [intros _; by exists s | by intros _; destruct s].
  - destruct s as [|c' s]; simpl.
    + split; [done|]. by intros [b Hb].
    + destruct (ascii_dec c c') as [->|Hne].
      * rewrite IH. split; intros [b Hb]; exists b.
        -- by rewrite Hb.
        -- change (String c' s = String c' (sub +:+ b)) in Hb. congruence.
      * split; [done|]. intros [b Hb].
        change (String c' s = String c (sub +:+ b)) in Hb. congruence.
Qed.

(** [strings.Contains] holds exactly of the texts in which [substr] occurs. *)
Lemma Contains_occurs s : ∀ substr,
  strings.Contains s substr = true ↔ ∃ a b, s = a +:+ substr +:+ b.
Proof.
  induction s as [|c s IH]; intros substr; cbn [strings.Contains];
    rewrite orb_true_iff, prefix_app.
  - split.
    + intros [[b Hb]|]; [|done]. by exists "", b.
    + intros ([|? a] & b & Hab); [|done]. left. by exists b.
  - rewrite IH. split.
    + intros [[b Hb]|(a & b & Hab)]; [by exists "", b|].
      exists (String c a), b. by rewrite Hab.
    + intros ([|c' a] & b & Hab); [left; by exists b|].
      right. exists a, b.
      change (String c s = String c' (a +:+ substr +:+ b)) in Hab. congruence.
Qed.

(** ** The wait loop *)

Lemma grow_nil s : grow s [] [] [] 0 (st_failed s) = s.
Proof. destruct s; unfold grow; simpl. by rewrite !app_nil_r, Nat.add_0_r. Qed.

Lemma grow_grow s d1 t1 o1 n1 f1 d2 t2 o2 n2 f2 :
  grow (grow s d1 t1 o1 n1 f1) d2 t2 o2 n2 f2
  = grow s (d1 ++ d2) (t1 ++ t2) (o1 ++ o2) (n1 + n2) f2.
Proof. unfold grow; simpl. by rewrite !app_assoc, Nat.add_assoc. Qed.

Section LoopProofs.
Variable w : World.

Lemma range_dialPort l : ∀ acc err s,
  range_with l (acc, err) (dialPort w) s
  = (Ret (acc ++ still_closed w (length (st_dials s)) l,
          last_err w (length (st_dials s)) l err),
     grow s (map addr l) [] [] 0 (st_failed s)).
Proof.
  induction l as [|p l IH]; intros acc err s; simpl.
  - by rewrite app_nil_r, grow_nil.
  - munfold. unfold dialPort at 1. munfold. unfold DialTimeout.
    fold (addr p). fold (dial w (length (st_dials s)) p).
    destruct (dial w (length (st_dials s)) p) as [conn e] eqn:Hd.
    rewrite IH. simpl. rewrite length_app. simpl.
    replace (length (st_dials s) + 1)%nat with (S (length (st_dials s))) by lia.
    f_equal.
    + destruct conn; simpl; [done|]. by rewrite <- app_assoc.
    + unfold grow, add_dial; simpl. by rewrite <- !app_assoc, !app_nil_r.
Qed.

Lemma int_incr_in_range i : int_min ≤ i → i < int_max → int_incr i = i + 1.
Proof.
  unfold int_incr, int_wrap, int_min, int_max. intros Hlo Hhi.
  rewrite Z.mod_small; lia.
Qed.


Lemma log_retry (t : option T) msg s :
  (match t with Some t0 => Log t0 msg | None => log.Print msg end) s
  = (Ret tt, grow s [] (to_tlog t [msg]) (to_stdlog t [msg]) 0 (st_failed s)).
Proof.
  destruct t; unfold Log, log.Print, grow, add_tlog, add_stdlog; simpl;
    by rewrite ?app_nil_r, Nat.add_0_r.
Qed.

Lemma waitLoop_round fuel t maxRetry i l err s :
  i ≤ maxRetry →
  waitLoop w (S fuel) t maxRetry i l err s
  = let n := length (st_dials s) in
    let msg := retryMessage i maxRetry l in
    let s1 := grow s (map addr l) (to_tlog t [msg]) (to_stdlog t [msg]) 0 (st_failed s) in
    match still_closed w n l with
    | [] => (Ret None, s1)
    | _ :: _ => waitLoop w fuel t maxRetry (int_incr i) (still_closed w n l)
                  (last_err w n l err) (add_slept 1 s1)
    end.
Proof.
  intros Hi. cbn [waitLoop]. destruct (Z.leb_spec i maxRetry) as [_|]; [|lia].
  munfold. rewrite log_retry, range_dialPort, grow_grow. simpl.
  rewrite !app_nil_r.
  destruct (still_closed w (length (st_dials s)) l); reflexivity.
Qed.

Lemma waitLoop_exit fuel t maxRetry i l err s :
  maxRetry < i →
  waitLoop w (S fuel) t maxRetry i l err s
  = (match t with Some _ => Goexit | None => Ret (Some (timeoutError maxRetry err)) end,
     grow s [] (to_tlog t [timeoutError maxRetry err]) []
       0 (match t with Some _ => true | None => st_failed s end)).
Proof.
  intros Hi. cbn [waitLoop]. destruct (Z.leb_spec i maxRetry) as [|_]; [lia|].
  destruct t; simpl.
  - unfold Fatal, FailNow, Log. munfold. unfold grow, add_tlog, set_failed; simpl.
    by rewrite ?app_nil_r, Nat.add_0_r.
  - munfold. unfold grow; simpl. rewrite ?app_nil_r, Nat.add_0_r. by destruct s.
Qed.


Lemma add_slept_grow s d tl ol n f k :
  add_slept k (grow s d tl ol n f) = grow s d tl ol (n + k) f.
Proof. unfold add_slept, grow; simpl. by rewrite Nat.add_assoc. Qed.

Lemma to_tlog_app t a b : to_tlog t (a ++ b) = to_tlog t a ++ to_tlog t b.
Proof. by destruct t. Qed.

Lemma to_stdlog_app t a b : to_stdlog t (a ++ b) = to_stdlog t a ++ to_stdlog t b.
Proof. by destruct t. Qed.

Lemma to_tlog_cons t a b : to_tlog t (a :: b) = to_tlog t [a] ++ to_tlog t b.
Proof. by destruct t. Qed.

Lemma to_stdlog_cons t a b : to_stdlog t (a :: b) = to_stdlog t [a] ++ to_stdlog t b.
Proof. by destruct t. Qed.

Lemma length_dials_grow s d tl ol n f :
  length (st_dials (grow s d tl ol n f)) = (length (st_dials s) + length d)%nat.
Proof. simpl. by rewrite length_app. Qed.

Lemma waitLoop_success K : ∀ fuel t maxRetry i l err s,
  (K < fuel)%nat →
  int_min ≤ i → i + Z.of_nat K ≤ maxRetry → maxRetry ≤ int_max →
  (∀ k, (1 ≤ k ≤ K)%nat → pending w (length (st_dials s)) l k ≠ []) →
  pending w (length (st_dials s)) l (S K) = [] →
  waitLoop w fuel t maxRetry i l err s
  = (Ret None,
     grow s (map addr (dial_trace w (length (st_dials s)) l (S K)))
       (to_tlog t (retry_log w maxRetry i (length (st_dials s)) l (S K)))
       (to_stdlog t (retry_log w maxRetry i (length (st_dials s)) l (S K)))
       K (st_failed s)).
Proof.
  induction K as [|K IH]; intros fuel t maxRetry i l err s Hfuel Hlo Hi Hmax Hne Hemp;
    (destruct fuel as [|fuel]; [lia|]); rewrite waitLoop_round by lia; cbv zeta.
  - simpl in Hemp. rewrite Hemp. simpl. by rewrite app_nil_r.
  - pose proof (Hne 1%nat ltac:(lia)) as H1. cbn [pending] in H1, Hemp.
    set (n := length (st_dials s)) in *.
    destruct (still_closed w n l) as [|q l'] eqn:Hsc; [done|]. rewrite <- Hsc in *.
    rewrite int_incr_in_range, add_slept_grow by lia.
    set (s1 := grow s _ _ _ _ _).
    assert (Hn1 : length (st_dials s1) = (n + length l)%nat).
    { subst s1 n. by rewrite length_dials_grow, length_map. }
    rewrite IH; try lia; rewrite Hn1; [|intros k Hk; apply (Hne (S k)); lia|done].
    subst s1. rewrite grow_grow. fold n. change (dial_trace w n l (S (S K)))
      with (l ++ dial_trace w (n + length l) (still_closed w n l) (S K)).
    change (retry_log w maxRetry i n l (S (S K)))
      with (retryMessage i maxRetry l
              :: retry_log w maxRetry (i + 1) (n + length l) (still_closed w n l) (S K)).
    rewrite map_app. by destruct t; cbn [to_tlog to_stdlog]; rewrite ?app_nil_r.
Qed.

Lemma waitLoop_timeout R : ∀ fuel t maxRetry i l err s,
  (R < fuel)%nat →
  int_min ≤ i → R = Z.to_nat (maxRetry + 1 - i) → maxRetry < int_max →
  (∀ k, (1 ≤ k ≤ R)%nat → pending w (length (st_dials s)) l k ≠ []) →
  let n := length (st_dials s) in
  let e := timeoutError maxRetry (err_after w n l err R) in
  waitLoop w fuel t maxRetry i l err s
  = (match t with Some _ => Goexit | None => Ret (Some e) end,
     grow s (map addr (dial_trace w n l R))
       (to_tlog t (retry_log w maxRetry i n l R ++ [e]))
       (to_stdlog t (retry_log w maxRetry i n l R))
       R (match t with Some _ => true | None => st_failed s end)).
Proof.
  induction R as [|R IH]; intros fuel t maxRetry i l err s Hfuel Hlo HR Hmax Hne n e;
    (destruct fuel as [|fuel]; [lia|]).
  - rewrite waitLoop_exit by lia. subst e. simpl. by destruct t.
  - rewrite waitLoop_round by lia; cbv zeta.
    pose proof (Hne 1%nat ltac:(lia)) as H1. cbn [pending] in H1. fold n in H1 |- *.
    destruct (still_closed w n l) as [|q l'] eqn:Hsc; [done|]. rewrite <- Hsc in *.
    rewrite int_incr_in_range, add_slept_grow by lia.
    set (s1 := grow s _ _ _ _ _).
    assert (Hn1 : length (st_dials s1) = (n + length l)%nat).
    { subst s1 n. by rewrite length_dials_grow, length_map. }
    rewrite IH; try lia; rewrite ?Hn1; [|intros k Hk; apply (Hne (S k)); lia].
    subst s1 e. rewrite grow_grow. fold n. change (dial_trace w n l (S R))
      with (l ++ dial_trace w (n + length l) (still_closed w n l) R).
    change (retry_log w maxRetry i n l (S R))
      with (retryMessage i maxRetry l
              :: retry_log w maxRetry (i + 1) (n + length l) (still_closed w n l) R).
    change (err_after w n l err (S R))
      with (err_after w (n + length l) (still_closed w n l) (last_err w n l err) R).
    rewrite map_app. by destruct t; cbn [to_tlog to_stdlog]; rewrite ?app_nil_r.
Qed.

(** With more fuel than the budget has rounds left, the loop ends, and the
    same way whatever the fuel. *)
Lemma waitLoop_total R : ∀ fuel fuel' t maxRetry i l err s,
  R = Z.to_nat (maxRetry + 1 - i) → int_min ≤ i → maxRetry < int_max →
  (R < fuel)%nat → (R < fuel')%nat →
  waitLoop w fuel t maxRetry i l err s = waitLoop w fuel' t maxRetry i l err s
  ∧ (waitLoop w fuel t maxRetry i l err s).1 ≠ OutOfFuel.
Proof.
  induction R as [|R IH]; intros fuel fuel' t maxRetry i l err s HR Hlo Hmax Hf Hf';
    (destruct fuel as [|fuel]; [lia|]); (destruct fuel' as [|fuel']; [lia|]).
  - rewrite !waitLoop_exit by lia. by destruct t.
  - rewrite !waitLoop_round by lia. cbv zeta.
    destruct (still_closed w (length (st_dials s)) l); [done|].
    rewrite int_incr_in_range by lia. apply IH; lia.
Qed.
End LoopProofs.

Section ObserverProofs.
Variable w : World.

Lemma still_closed_sublist l : ∀ n, still_closed w n l `sublist_of` l.
Proof.
  induction l as [|p l IH]; intros n; simpl; [done|].
  destruct (dial w n p).1; [apply sublist_cons | apply sublist_skip]; apply IH.
Qed.

Lemma pending_S_sublist k : ∀ n l, pending w n l (S k) `sublist_of` pending w n l k.
Proof.
  induction k as [|k IH]; intros n l.
  - apply still_closed_sublist.
  - apply (IH (n + length l)%nat (still_closed w n l)).
Qed.

Lemma pending_sublist k : ∀ n l, pending w n l k `sublist_of` l.
Proof.
  induction k as [|k IH]; intros n l; simpl; [done|].
  etrans; [apply IH | apply still_closed_sublist].
Qed.

Lemma pending_S k : ∀ n l,
  pending w n l (S k) = still_closed w (dials_before w n l k) (pending w n l k).
Proof.
  induction k as [|k IH]; intros n l; [done|].
  apply (IH (n + length l)%nat (still_closed w n l)).
Qed.

Lemma dial_trace_concat k : ∀ n l,
  dial_trace w n l k = concat (map (pending w n l) (seq 0 k)).
Proof.
  induction k as [|k IH]; intros n l; [done|].
  cbn [dial_trace]. rewrite IH. cbn [seq map concat]. f_equal.
  rewrite <- seq_shift, map_map. done.
Qed.

Lemma length_retry_log maxRetry k : ∀ i n l,
  length (retry_log w maxRetry i n l k) = k.
Proof. induction k as [|k IH]; intros i n l; simpl; [done|]. by rewrite IH. Qed.

Lemma still_closed_app l1 : ∀ n l2,
  still_closed w n (l1 ++ l2)
  = still_closed w n l1 ++ still_closed w (n + length l1) l2.
Proof.
  induction l1 as [|p l1 IH]; intros n l2; simpl.
  - by rewrite Nat.add_0_r.
  - rewrite IH. replace (n + S (length l1))%nat with (S n + length l1)%nat by lia.
    by destruct (dial w n p).1.
Qed.

Lemma never_opens_still_closed p l : ∀ n,
  never_opens w p → p ∈ l → p ∈ still_closed w n l.
Proof.
  intros n Hp Hin. revert n. induction l as [|q l IH]; intros n; [by apply elem_of_nil in Hin|].
  simpl. apply elem_of_cons in Hin as [->|Hin].
  - rewrite (Hp n). apply elem_of_cons; by left.
  - destruct (dial w n q).1; [|apply elem_of_cons; right]; by apply IH.
Qed.

Lemma never_opens_pending p k : ∀ n l,
  never_opens w p → p ∈ l → p ∈ pending w n l k.
Proof.
  induction k as [|k IH]; intros n l Hp Hin; [done|].
  simpl. apply IH; [done|]. by apply never_opens_still_closed.
Qed.

Section Entries.
Context {A : Type} (port_of : A → string).

Lemma entries_still_closed_map l : ∀ n,
  map port_of (entries.still_closed w port_of n l) = still_closed w n (map port_of l).
Proof.
  induction l as [|e l IH]; intros n; simpl; [done|].
  destruct (dial w n (port_of e)).1; simpl; by rewrite IH.
Qed.

Lemma entries_pending_map k : ∀ n l,
  map port_of (entries.pending w port_of n l k) = pending w n (map port_of l) k.
Proof.
  induction k as [|k IH]; intros n l; simpl; [done|].
  by rewrite IH, entries_still_closed_map, length_map.
Qed.

Lemma entries_still_closed_sublist l : ∀ n,
  entries.still_closed w port_of n l `sublist_of` l.
Proof.
  induction l as [|e l IH]; intros n; simpl; [done|].
  destruct (dial w n (port_of e)).1; [apply sublist_cons | apply sublist_skip]; apply IH.
Qed.

Lemma entries_pending_S_sublist k : ∀ n l,
  entries.pending w port_of n l (S k) `sublist_of` entries.pending w port_of n l k.
Proof.
  induction k as [|k IH]; intros n l.
  - apply entries_still_closed_sublist.
  - apply (IH (n + length l)%nat (entries.still_closed w port_of n l)).
Qed.

Lemma entries_pending_mono j k n l :
  (j ≤ k)%nat →
  entries.pending w port_of n l k `sublist_of` entries.pending w port_of n l j.
Proof.
  induction 1 as [|k _ IH]; [done|].
  etrans; [apply entries_pending_S_sublist | apply IH].
Qed.

Lemma entries_pending_S k : ∀ n l,
  entries.pending w port_of n l (S k)
  = entries.still_closed w port_of (dials_before w n (map port_of l) k)
      (entries.pending w port_of n l k).
Proof.
  induction k as [|k IH]; intros n l; [done|].
  cbn [entries.pending dials_before] in *.
  by rewrite IH, entries_still_closed_map, length_map.
Qed.

(** An entry that occurs once and whose dial connects is dropped. *)
Lemma entries_still_closed_drops l : ∀ n m e,
  NoDup l → l !! m = Some e → (dial w (n + m) (port_of e)).1 ≠ None →
  e ∉ entries.still_closed w port_of n l.
Proof.
  induction l as [|x l IH]; intros n m e Hnd Hm Hconn; [done|].
  apply NoDup_cons in Hnd as [Hx Hnd]. destruct m as [|m]; simpl in Hm |- *.
  - injection Hm as ->. rewrite Nat.add_0_r in Hconn.
    destruct (dial w n (port_of e)).1; [|done].
    intros Hin. apply Hx. eapply elem_of_sublist; [exact Hin|apply entries_still_closed_sublist].
  - assert (e ∉ entries.still_closed w port_of (S n) l) as Hrec.
    { apply (IH (S n) m); [done..|]. by replace (S n + m)%nat with (n + S m)%nat by lia. }
    destruct (dial w n (port_of x)).1; [done|].
    apply not_elem_of_cons; split; [|done].
    intros ->. apply Hx. apply list_elem_of_lookup. by exists m.
Qed.

Lemma entries_never_redialed n l j k m e :
  NoDup l → (j < k)%nat →
  entries.pending w port_of n l j !! m = Some e →
  (dial w (dials_before w n (map port_of l) j + m) (port_of e)).1 ≠ None →
  e ∉ entries.pending w port_of n l k.
Proof.
  intros Hnd Hjk Hm Hconn Hin.
  assert (e ∈ entries.pending w port_of n l (S j)) as HS.
  { eapply elem_of_sublist; [exact Hin|]. apply entries_pending_mono. lia. }
  rewrite entries_pending_S in HS. revert HS.
  eapply entries_still_closed_drops; [|done..].
  eapply sublist_NoDup; [exact Hnd|]. apply (entries_pending_mono 0). lia.
Qed.
End Entries.

Lemma tagged_ports ports : map snd (entries.tagged ports) = ports.
Proof.
  unfold entries.tagged. apply list_eq. intros i.
  rewrite list_lookup_fmap, list_lookup_imap. by destruct (ports !! i).
Qed.

Lemma NoDup_tagged ports : NoDup (entries.tagged ports).
Proof.
  unfold entries.tagged. apply NoDup_alt. intros i j [a p] Hi Hj.
  rewrite list_lookup_imap in Hi, Hj.
  destruct (ports !! i); [|done]. destruct (ports !! j); [|done].
  simpl in *. congruence.
Qed.
End ObserverProofs.

Import samples.

Section WaitProofs.
Variable w : World.

Lemma pending_nonempty_of_never_opens p n l k :
  never_opens w p → p ∈ l → pending w n l k ≠ [].
Proof.
  intros Hp Hin Hnil. pose proof (never_opens_pending w p k n l Hp Hin) as H.
  rewrite Hnil in H. by apply elem_of_nil in H.
Qed.

Lemma still_closed_split l1 q l2 m :
  still_closed w m (l1 ++ q :: l2)
  = still_closed w m l1
      ++ (if (dial w (m + length l1) q).1 is Some _ then [] else [q])
      ++ still_closed w (S (m + length l1)) l2.
Proof.
  rewrite still_closed_app. f_equal. simpl.
  by destruct (dial w (m + length l1) q).1.
Qed.
End WaitProofs.

(** C1.  Whenever some port of the list never accepts a connection,
    [WaitServiceOnline] makes exactly [maxRetry] rounds (none when
    [maxRetry] is negative), each of which dials once every entry that is
    pending when it starts, logs one line and sleeps one second; it then
    fails with the time-out error, through [t.Fatal] when there is a [t] and
    by returning the error otherwise, and so never returns nil.  The budget
    is any [int] below the largest one, at which the counter [i] would wrap
    around. *)
Theorem WaitServiceOnline_exhausts_budget
    (w : World) (fuel : nat) (t : option T) (maxRetry : Z)
    (ports : list string) (p : string) (s : St) :
  p ∈ ports → never_opens w p →
  maxRetry < int_max → (Z.to_nat maxRetry < fuel)%nat →
  let n := length (st_dials s) in
  let R := Z.to_nat maxRetry in
  let e := timeoutError maxRetry (err_after w n ports None R) in
  WaitServiceOnline w fuel t maxRetry ports s
    = (match t with Some _ => Goexit | None => Ret (Some e) end,
       grow s (map addr (dial_trace w n ports R))
         (to_tlog t (retry_log w maxRetry 1 n ports R ++ [e]))
         (to_stdlog t (retry_log w maxRetry 1 n ports R))
         R (match t with Some _ => true | None => st_failed s end))
  ∧ Z.of_nat R = Z.max 0 maxRetry
  ∧ length (retry_log w maxRetry 1 n ports R) = R
  ∧ dial_trace w n ports R = concat (map (pending w n ports) (seq 0 R))
  ∧ ∀ k, p ∈ pending w n ports k.
Proof.
  intros Hin Hp Hmax Hfuel n R e. split; [|split; [|split; [|split]]].
  - unfold WaitServiceOnline. apply waitLoop_timeout.
    + exact Hfuel.
    + unfold int_min. lia.
    + subst R. by replace (maxRetry + 1 - 1) with maxRetry by lia.
    + exact Hmax.
    + intros k _. by eapply pending_nonempty_of_never_opens.
  - subst R. lia.
  - apply length_retry_log.
  - apply dial_trace_concat.
  - intros k. by apply never_opens_pending.
Qed.

Lemma WaitServiceOnline_exhausts_budget_witness :
  WaitServiceOnline world_8080_closed 3 None 2 ["8080"; "9090"] st0
  = (Ret (Some "Time out: reached max 2 retries. Error: dial tcp :8080: connect: connection refused"),
     mkSt [":8080"; ":9090"; ":8080"] [] 0 []
       ["Retry 1/2: Waiting for ports: 8080, 9090"; "Retry 2/2: Waiting for ports: 8080"]
       false 2 ∅ ∅).
Proof.
  refine (proj1 (WaitServiceOnline_exhausts_budget world_8080_closed 3 None 2
                   ["8080"; "9090"] "8080" st0 _ _ _ _)).
  - apply list_elem_of_here.
  - intros n. reflexivity.
  - reflexivity.
  - simpl. lia.
Defined.

(** C2.  Within a round an entry of the pending list is dropped exactly when
    the dial made for it connects, whatever happens to the entries around it.
    When round [K + 1] is the first one that leaves the pending list empty
    and lies within the budget, [WaitServiceOnline] returns nil after
    exactly [K + 1] rounds, the last of them without a sleep, and leaves the
    failure flag of the test as it was. *)
Theorem WaitServiceOnline_returns_at_first_empty_round
    (w : World) (fuel : nat) (t : option T) (maxRetry : Z)
    (ports : list string) (s : St) (K : nat) :
  (K < fuel)%nat → Z.of_nat (S K) ≤ maxRetry → maxRetry ≤ int_max →
  (∀ k, (1 ≤ k ≤ K)%nat → pending w (length (st_dials s)) ports k ≠ []) →
  pending w (length (st_dials s)) ports (S K) = [] →
  let n := length (st_dials s) in
  WaitServiceOnline w fuel t maxRetry ports s
    = (Ret None,
       grow s (map addr (dial_trace w n ports (S K)))
         (to_tlog t (retry_log w maxRetry 1 n ports (S K)))
         (to_stdlog t (retry_log w maxRetry 1 n ports (S K)))
         K (st_failed s))
  ∧ length (retry_log w maxRetry 1 n ports (S K)) = S K
  ∧ dial_trace w n ports (S K) = concat (map (pending w n ports) (seq 0 (S K)))
  ∧ (∀ k, pending w n ports (S k)
          = still_closed w (dials_before w n ports k) (pending w n ports k))
  ∧ (∀ m l1 q l2,
       still_closed w m (l1 ++ q :: l2)
       = still_closed w m l1
           ++ (if (dial w (m + length l1) q).1 is Some _ then [] else [q])
           ++ still_closed w (S (m + length l1)) l2).
Proof.
  intros Hfuel HK Hmax Hne Hemp n. split; [|split; [|split; [|split]]].
  - unfold WaitServiceOnline. apply waitLoop_success.
    + exact Hfuel.
    + unfold int_min. lia.
    + lia.
    + exact Hmax.
    + exact Hne.
    + exact Hemp.
  - apply length_retry_log.
  - apply dial_trace_concat.
  - intros k. apply pending_S.
  - intros m l1 q l2. apply still_closed_split.
Qed.

Lemma WaitServiceOnline_returns_at_first_empty_round_witness :
  WaitServiceOnline world_late_start 61 (Some T1) 60 ["5550"; "9090"] st0
  = (Ret None,
     mkSt [":5550"; ":9090"; ":5550"] [] 0
       ["Retry 1/60: Waiting for ports: 5550 (chip-tool), 9090";
        "Retry 2/60: Waiting for ports: 5550 (chip-tool)"]
       [] false 1 ∅ ∅).
Proof.
  refine (proj1 (WaitServiceOnline_returns_at_first_empty_round world_late_start 61
                   (Some T1) 60 ["5550"; "9090"] st0 1 _ _ _ _ _)).
  - lia.
  - lia.
  - unfold int_max. lia.
  - intros k Hk. assert (k = 1%nat) as -> by lia. vm_compute. discriminate.
  - reflexivity.
Defined.

Section ReportProofs.
Variable w : World.

Lemma retry_log_lookup maxRetry k : ∀ i n l j,
  (j < k)%nat →
  retry_log w maxRetry i n l k !! j
  = Some (retryMessage (i + Z.of_nat j) maxRetry (pending w n l j)).
Proof.
  induction k as [|k IH]; intros i n l j Hj; [lia|].
  destruct j as [|j]; cbn [retry_log pending].
  - simpl. by rewrite Z.add_0_r.
  - simpl lookup. rewrite IH by lia. do 2 f_equal. lia.
Qed.

Lemma pending_mono j k n l :
  (j ≤ k)%nat → pending w n l k `sublist_of` pending w n l j.
Proof.
  induction 1 as [|k _ IH]; [done|].
  etrans; [apply pending_S_sublist | apply IH].
Qed.

Lemma timeoutError_format maxRetry returnErr :
  timeoutError maxRetry returnErr
  = "Time out: reached max " +:+ fmt.d maxRetry +:+ " retries."
      +:+ match returnErr with Some x => " Error: " +:+ x | None => "" end.
Proof.
  unfold timeoutError. destruct returnErr as [x|]; reflexivity.
Qed.
End ReportProofs.

(** C3, as the code has it.  When no round within the budget empties the
    pending list, [WaitServiceOnline] reports the time-out error "Time out:
    reached max <maxRetry> retries.", followed by " Error: <e>" when the last
    dial made returned the error [e]: through [t.Fatal], as the last line of
    the test's output, when there is a [t], and as the returned error
    otherwise.  The error does not list the ports that are still closed.
    These are named by the line each round logs when it starts, "Retry
    <i>/<maxRetry>: Waiting for ports: ...", which lists the ports pending
    then, a list of which the ports closed at the end are a part. *)
Theorem WaitServiceOnline_timeout_report
    (w : World) (fuel : nat) (t : option T) (maxRetry : Z)
    (ports : list string) (s : St) :
  maxRetry < int_max → (Z.to_nat maxRetry < fuel)%nat →
  (∀ k, (1 ≤ k ≤ Z.to_nat maxRetry)%nat →
        pending w (length (st_dials s)) ports k ≠ []) →
  let n := length (st_dials s) in
  let R := Z.to_nat maxRetry in
  let e := "Time out: reached max " +:+ fmt.d maxRetry +:+ " retries."
             +:+ match err_after w n ports None R with
                 | Some x => " Error: " +:+ x
                 | None => ""
                 end in
  let run := WaitServiceOnline w fuel t maxRetry ports s in
  run.1 = match t with Some _ => Goexit | None => Ret (Some e) end
  ∧ st_tlog run.2 = st_tlog s ++ to_tlog t (retry_log w maxRetry 1 n ports R ++ [e])
  ∧ st_stdlog run.2 = st_stdlog s ++ to_stdlog t (retry_log w maxRetry 1 n ports R)
  ∧ st_failed run.2 = match t with Some _ => true | None => st_failed s end
  ∧ ∀ j, (j < R)%nat →
      retry_log w maxRetry 1 n ports R !! j
        = Some (retryMessage (1 + Z.of_nat j) maxRetry (pending w n ports j))
      ∧ pending w n ports R `sublist_of` pending w n ports j.
Proof.
  intros Hmax Hfuel Hne n R e run.
  assert (run = (match t with Some _ => Goexit | None => Ret (Some e) end,
       grow s (map addr (dial_trace w n ports R))
         (to_tlog t (retry_log w maxRetry 1 n ports R ++ [e]))
         (to_stdlog t (retry_log w maxRetry 1 n ports R))
         R (match t with Some _ => true | None => st_failed s end))) as ->.
  { subst run e. rewrite <- timeoutError_format. unfold WaitServiceOnline.
    apply waitLoop_timeout.
    - exact Hfuel.
    - unfold int_min. lia.
    - subst R. by replace (maxRetry + 1 - 1) with maxRetry by lia.
    - exact Hmax.
    - exact Hne. }
  repeat split; try done.
  - by apply retry_log_lookup.
  - apply pending_mono. lia.
Qed.

Lemma WaitServiceOnline_timeout_report_witness :
  (WaitServiceOnline world_8080_closed 3 (Some T1) 2 ["8080"; "9090"] st0).1 = Goexit
  ∧ st_tlog (WaitServiceOnline world_8080_closed 3 (Some T1) 2 ["8080"; "9090"] st0).2
    = ["Retry 1/2: Waiting for ports: 8080, 9090";
       "Retry 2/2: Waiting for ports: 8080";
       "Time out: reached max 2 retries. Error: dial tcp :8080: connect: connection refused"].
Proof.
  pose proof (WaitServiceOnline_timeout_report world_8080_closed 3 (Some T1) 2
                ["8080"; "9090"] st0) as H.
  destruct H as (H1 & H2 & _).
  - reflexivity.
  - simpl. lia.
  - intros k Hk. assert (k = 1 ∨ k = 2)%nat as [-> | ->] by (simpl in Hk; lia);
      vm_compute; discriminate.
  - split; [exact H1 | exact H2].
Defined.

(** C3, as the claim has it, fails: with port 8080 closed, port 9090 open
    and a budget of one round, the last dial of the round connects, so the
    returned error is the bare time-out message, although port 8080 is
    still closed. *)
Lemma timeout_error_omits_closed_ports :
  WaitServiceOnline world_8080_closed 2 None 1 ["8080"; "9090"] st0
  = (Ret (Some "Time out: reached max 1 retries."),
     mkSt [":8080"; ":9090"] [] 0 [] ["Retry 1/1: Waiting for ports: 8080, 9090"]
       false 1 ∅ ∅)
  ∧ pending world_8080_closed 0 ["8080"; "9090"] 1 = ["8080"]
  ∧ strings.Contains "Time out: reached max 1 retries." "8080" = false.
Proof. repeat split; reflexivity. Qed.

(** C4.  [WaitServiceOnline] called without ports, as by
    [WaitServiceOnline(t, 60)], does not abort: its first round logs an
    empty list of ports, dials nothing and returns nil.  The two binding
    checks panic before they list any socket. *)
Theorem WaitServiceOnline_accepts_no_ports
    (w : World) (fuel : nat) (t : option T) (t' : T) (mustListen : bool) (s : St) :
  WaitServiceOnline w (S fuel) t 60 [] s
    = (Ret None,
       grow s [] (to_tlog t ["Retry 1/60: Waiting for ports: "])
         (to_stdlog t ["Retry 1/60: Waiting for ports: "]) 0 (st_failed s))
  ∧ requireListenAllInterfaces w t' mustListen [] s = (Panic "No ports given as input", s)
  ∧ requireListenLoopback w t' [] s = (Panic "No ports given as input", s).
Proof.
  split; [|split; reflexivity].
  unfold WaitServiceOnline. rewrite waitLoop_round by lia. reflexivity.
Qed.

Section TraceProofs.
Variable w : World.

(** Whatever the budget and the fuel, the dials of a run are those of some
    number of rounds. *)
Lemma waitLoop_dials fuel : ∀ t maxRetry i l err s,
  ∃ K, (K ≤ fuel)%nat ∧
    st_dials (waitLoop w fuel t maxRetry i l err s).2
    = st_dials s ++ map addr (dial_trace w (length (st_dials s)) l K).
Proof.
  induction fuel as [|fuel IH]; intros t maxRetry i l err s.
  - exists 0%nat. split; [done|]. simpl. by rewrite app_nil_r.
  - destruct (Z.le_gt_cases i maxRetry) as [Hi|Hi].
    + rewrite waitLoop_round by done. cbv zeta.
      destruct (still_closed w (length (st_dials s)) l) as [|q l'] eqn:Hsc.
      * exists 1%nat. split; [lia|]. simpl. by rewrite app_nil_r.
      * rewrite <- Hsc. rewrite add_slept_grow.
        set (s1 := grow s _ _ _ _ _).
        destruct (IH t maxRetry (int_incr i) (still_closed w (length (st_dials s)) l)
                    (last_err w (length (st_dials s)) l err) s1) as (K & HK & ->).
        exists (S K). split; [lia|]. subst s1.
        rewrite length_dials_grow, length_map. cbn [dial_trace].
        simpl st_dials. by rewrite map_app, app_assoc.
    + rewrite waitLoop_exit by done. exists 0%nat. split; [lia|]. simpl.
      by rewrite app_nil_r.
Qed.
End TraceProofs.

(** When no port is listed twice, the entries are the ports themselves: a
    port whose dial connected in one round is not pending after it. *)
Corollary port_listed_once_never_redialed
    (w : World) (n : nat) (ports : list string) (j k m : nat) (p : string) :
  NoDup ports → (j < k)%nat →
  pending w n ports j !! m = Some p →
  (dial w (dials_before w n ports j + m) p).1 ≠ None →
  p ∉ pending w n ports k.
Proof.
  intros Hnd Hjk Hm Hconn.
  pose proof (entries_pending_map w id) as Hmap.
  assert (Hid : ∀ i, entries.pending w id n ports i = pending w n ports i).
  { intros i. pose proof (Hmap i n ports) as H. by rewrite !map_id in H. }
  rewrite <- Hid. apply (entries_never_redialed w id n ports j k m p).
  - exact Hnd.
  - exact Hjk.
  - by rewrite Hid.
  - by rewrite map_id.
Qed.

(** C10.  The rounds of a run of [WaitServiceOnline] dial, one after the
    other, the lists pending after 0, 1, 2, ... rounds.  Each of these lists
    is a subsequence of the one before it and of the input list.  Taking the
    entries of the input list with their positions, an entry whose dial
    connected in one round is in none of the lists pending after it, so it
    is not dialed in any later round. *)
Theorem WaitServiceOnline_pending_subsequence
    (w : World) (fuel : nat) (t : option T) (maxRetry : Z)
    (ports : list string) (s : St) :
  let n := length (st_dials s) in
  let run := WaitServiceOnline w fuel t maxRetry ports s in
  (∃ K, st_dials run.2
        = st_dials s ++ map addr (concat (map (pending w n ports) (seq 0 K))))
  ∧ (∀ k, pending w n ports (S k) `sublist_of` pending w n ports k
          ∧ pending w n ports k `sublist_of` ports)
  ∧ (∀ k, pending w n ports k
          = map snd (entries.pending w snd n (entries.tagged ports) k))
  ∧ (∀ j k m e,
       (j < k)%nat →
       entries.pending w snd n (entries.tagged ports) j !! m = Some e →
       (dial w (dials_before w n ports j + m) e.2).1 ≠ None →
       e ∉ entries.pending w snd n (entries.tagged ports) k).
Proof.
  intros n run. split; [|split; [|split]].
  - destruct (waitLoop_dials w fuel t maxRetry 1 ports None s) as (K & _ & HK).
    exists K. subst run. unfold WaitServiceOnline. by rewrite HK, dial_trace_concat.
  - intros k. split; [apply pending_S_sublist | apply pending_sublist].
  - intros k. by rewrite entries_pending_map, tagged_ports.
  - intros j k m e Hjk Hm Hconn.
    eapply entries_never_redialed; [apply NoDup_tagged | exact Hjk | exact Hm |].
    by rewrite tagged_ports.
Qed.

Lemma WaitServiceOnline_pending_subsequence_witness :
  (0%nat, "5550") ∈ entries.pending world_late_start snd 0 (entries.tagged ["5550"; "5550"]) 1
  ∧ (1%nat, "5550") ∉ entries.pending world_late_start snd 0 (entries.tagged ["5550"; "5550"]) 1.
Proof.
  split.
  - vm_compute. apply list_elem_of_here.
  - pose proof (WaitServiceOnline_pending_subsequence world_late_start 3 None 2
                  ["5550"; "5550"] st0) as H.
    destruct H as (_ & _ & _ & H). apply (H 0%nat 1%nat 1%nat (1%nat, "5550")).
    + lia.
    + reflexivity.
    + vm_compute. discriminate.
Defined.

Section ListingProofs.
Variable w : World.

Lemma isListenInterface_run t addr port s :
  isListenInterface w t addr port s
  = let o := listing.out w (length (st_execs s)) port in
    if decide (o = "") then (Goexit, listing.not_open port s)
    else (Ret (strings.Contains o (listing.token addr port)), listing.looked addr port s).
Proof.
  unfold isListenInterface, filterOpenPorts, lsof, Exec. munfold. cbv zeta.
  fold (listing.command port). fold (listing.out w (length (st_execs s)) port).
  destruct (decide (listing.out w (length (st_execs s)) port = "")); reflexivity.
Qed.

(** A loop body that lists a port through [isListenInterface] and reports
    [msg] when the outcome is [bad]. *)
Section CheckLoop.
Variables (addr : string) (bad : string → string → bool) (msg : string → string).
Variable body : string → M unit.
Hypothesis body_run : ∀ port s,
  body port s
  = let o := listing.out w (length (st_execs s)) port in
    if decide (o = "") then (Goexit, listing.not_open port s)
    else (Ret tt, listing.checked addr port (bad port o) (msg port) s).

Lemma range_all_listed (o : string → string) l : ∀ s,
  (∀ n p, p ∈ l → listing.out w n p = o p) → (∀ p, p ∈ l → o p ≠ "") →
  ∃ s', range l body s = (Ret tt, s')
        ∧ st_failed s' = st_failed s || existsb (λ p, bad p (o p)) l.
Proof.
  induction l as [|q l IH]; intros s Hout Hne.
  - exists s. split; [done|]. simpl. by rewrite orb_false_r.
  - cbn [range]. munfold. rewrite body_run; cbv zeta.
    rewrite (Hout _ q) by apply list_elem_of_here.
    destruct (decide (o q = "")) as [He|_]; [by apply Hne in He; [|apply list_elem_of_here]|].
    destruct (IH (listing.checked addr q (bad q (o q)) (msg q) s)) as (s' & -> & Hf).
    + intros n p Hp. apply Hout. by apply list_elem_of_further.
    + intros p Hp. apply Hne. by apply list_elem_of_further.
    + exists s'. split; [done|]. rewrite Hf. cbn [existsb].
      unfold listing.checked. destruct (bad q (o q)); simpl; [|done].
      by rewrite orb_true_r.
Qed.

Lemma range_until_unlisted pre : ∀ s p post,
  (∀ j q, pre !! j = Some q → listing.out w (length (st_execs s) + j) q ≠ "") →
  listing.out w (length (st_execs s) + length pre) p = "" →
  ∃ s', range (pre ++ p :: post) body s = (Goexit, s')
        ∧ st_failed s' = true
        ∧ last (st_tlog s') = Some ("Port " +:+ p +:+ " is not open")
        ∧ st_execs s' = st_execs s ++ map listing.command (pre ++ [p]).
Proof.
  induction pre as [|q pre IH]; intros s p post Hpre Hp.
  - simpl. munfold. rewrite body_run; cbv zeta. simpl in Hp. rewrite Nat.add_0_r in Hp.
    rewrite Hp. rewrite decide_True by done.
    eexists. split; [done|]. split; [done|]. split; [|done].
    unfold listing.not_open, set_failed, add_tlog. cbn [st_tlog]. apply last_snoc.
  - cbn [app range]. munfold. rewrite body_run; cbv zeta.
    pose proof (Hpre 0%nat q eq_refl) as Hq. rewrite Nat.add_0_r in Hq.
    destruct (decide (listing.out w (length (st_execs s)) q = "")) as [|_]; [done|].
    set (s1 := listing.checked _ _ _ _ _).
    assert (st_execs s1 = st_execs s ++ [listing.command q]) as Hex.
    { subst s1. unfold listing.checked. by destruct (bad _ _). }
    destruct (IH s1 p post) as (s' & -> & Hf & Hl & He).
    + intros j q' Hj. rewrite Hex, length_app. simpl.
      replace (length (st_execs s) + 1 + j)%nat with (length (st_execs s) + S j)%nat by lia.
      by apply Hpre.
    + rewrite Hex, length_app. simpl.
      by replace (length (st_execs s) + 1 + length pre)%nat
        with (length (st_execs s) + S (length pre))%nat by lia.
    + exists s'. split; [done|]. split; [done|]. split; [done|].
      rewrite He, Hex. simpl. by rewrite <- app_assoc.
Qed.
End CheckLoop.

Lemma checkAllInterfaces_run t mustListen port s :
  checkAllInterfaces w t mustListen port s
  = let o := listing.out w (length (st_execs s)) port in
    if decide (o = "") then (Goexit, listing.not_open port s)
    else (Ret tt,
          listing.checked "*" port
            (xorb mustListen (strings.Contains o (listing.token "*" port)))
            (if mustListen
             then "Port " +:+ port +:+ " not listening to all interfaces"
             else "Port " +:+ port +:+ " is listening to all interfaces") s).
Proof.
  unfold checkAllInterfaces. munfold. rewrite isListenInterface_run; cbv zeta.
  destruct (decide (listing.out w (length (st_execs s)) port = "")); [done|].
  by destruct mustListen, (strings.Contains _ _).
Qed.

Lemma checkLoopback_run t port s :
  checkLoopback w t port s
  = let o := listing.out w (length (st_execs s)) port in
    if decide (o = "") then (Goexit, listing.not_open port s)
    else (Ret tt,
          listing.checked "127.0.0.1" port
            (negb (strings.Contains o (listing.token "127.0.0.1" port)))
            ("Port " +:+ port +:+ " is not restricted to listen on loopback interface") s).
Proof.
  unfold checkLoopback. munfold. rewrite isListenInterface_run; cbv zeta.
  destruct (decide (listing.out w (length (st_execs s)) port = "")); [done|].
  by destruct (strings.Contains _ _).
Qed.

(** After their loop the two checks stop the test if it has failed. *)
Lemma requireListenAllInterfaces_range t mustListen ports s :
  ports ≠ [] →
  requireListenAllInterfaces w t mustListen ports s
  = match range ports (checkAllInterfaces w t mustListen) s with
    | (Ret _, s') => if st_failed s' then (Goexit, set_failed true s') else (Ret tt, s')
    | (Goexit, s') => (Goexit, s')
    | (Panic v, s') => (Panic v, s')
    | (OutOfFuel, s') => (OutOfFuel, s')
    end.
Proof.
  intros Hne. unfold requireListenAllInterfaces.
  destruct (decide (length ports = 0%nat)) as [H0|_].
  { by destruct ports. }
  munfold. destruct (range ports _ s) as [[[]| | |] s']; try done.
  unfold Failed. by destruct (st_failed s').
Qed.

Lemma requireListenLoopback_range t ports s :
  ports ≠ [] →
  requireListenLoopback w t ports s
  = match range ports (checkLoopback w t) s with
    | (Ret _, s') => if st_failed s' then (Goexit, set_failed true s') else (Ret tt, s')
    | (Goexit, s') => (Goexit, s')
    | (Panic v, s') => (Panic v, s')
    | (OutOfFuel, s') => (OutOfFuel, s')
    end.
Proof.
  intros Hne. unfold requireListenLoopback.
  destruct (decide (length ports = 0%nat)) as [H0|_].
  { by destruct ports. }
  munfold. destruct (range ports _ s) as [[[]| | |] s']; try done.
  unfold Failed. by destruct (st_failed s').
Qed.

(** With every port listed, the all-interfaces check ends with the flag set
    exactly when some port is bound otherwise than asked. *)
Lemma requireListenAllInterfaces_listed t mustListen ports s (o : string → string) :
  ports ≠ [] →
  (∀ n p, p ∈ ports → listing.out w n p = o p) → (∀ p, p ∈ ports → o p ≠ "") →
  ∃ r s', requireListenAllInterfaces w t mustListen ports s = (r, s')
    ∧ (r = Ret tt ∨ r = Goexit)
    ∧ st_failed s'
      = st_failed s
        || existsb (λ p, xorb mustListen (strings.Contains (o p) (listing.token "*" p))) ports.
Proof.
  intros Hne Hout Ho. rewrite requireListenAllInterfaces_range by done.
  destruct (range_all_listed "*"
              (λ p x, xorb mustListen (strings.Contains x (listing.token "*" p)))
              _ _ (checkAllInterfaces_run t mustListen) o ports s Hout Ho)
    as (s' & -> & Hf).
  destruct (st_failed s') eqn:Hs'.
  - exists Goexit, (set_failed true s'). split; [done|]. split; [by right|]. by rewrite <- Hf.
  - exists (Ret tt), s'. split; [done|]. split; [by left|]. by rewrite <- Hf.
Qed.

Lemma requireListenLoopback_listed t ports s (o : string → string) :
  ports ≠ [] →
  (∀ n p, p ∈ ports → listing.out w n p = o p) → (∀ p, p ∈ ports → o p ≠ "") →
  ∃ r s', requireListenLoopback w t ports s = (r, s')
    ∧ (r = Ret tt ∨ r = Goexit)
    ∧ st_failed s'
      = st_failed s
        || existsb (λ p, negb (strings.Contains (o p) (listing.token "127.0.0.1" p))) ports.
Proof.
  intros Hne Hout Ho. rewrite requireListenLoopback_range by done.
  destruct (range_all_listed "127.0.0.1"
              (λ p x, negb (strings.Contains x (listing.token "127.0.0.1" p)))
              _ _ (checkLoopback_run t) o ports s Hout Ho)
    as (s' & -> & Hf).
  destruct (st_failed s') eqn:Hs'.
  - exists Goexit, (set_failed true s'). split; [done|]. split; [by right|]. by rewrite <- Hf.
  - exists (Ret tt), s'. split; [done|]. split; [by left|]. by rewrite <- Hf.
Qed.

(** A subtest that returns or stops hands its failure to the parent. *)
Lemma Run_returns t name f s r s' :
  f (mkT (Name t +:+ "/" +:+ strings.ReplaceAll name " " "_")) (set_failed false s) = (r, s') →
  r = Ret tt ∨ r = Goexit →
  Run t name f s
  = (Ret (negb (st_failed s')), set_failed (st_failed s || st_failed s') s').
Proof. intros Hf [-> | ->]; unfold Run; by rewrite Hf. Qed.

(** A run of the wait loop that does not stop the test leaves its flag. *)
Lemma waitLoop_failed fuel : ∀ t maxRetry i l err s,
  (waitLoop w fuel t maxRetry i l err s).1 ≠ Goexit →
  st_failed (waitLoop w fuel t maxRetry i l err s).2 = st_failed s.
Proof.
  induction fuel as [|fuel IH]; intros t maxRetry i l err s; [done|].
  destruct (Z.le_gt_cases i maxRetry) as [Hi|Hi].
  - rewrite waitLoop_round by done. cbv zeta.
    destruct (still_closed w (length (st_dials s)) l) eqn:Hsc; [done|].
    intros H. by rewrite IH.
  - rewrite waitLoop_exit by done. by destruct t.
Qed.
End ListingProofs.

Lemma token_loopback p : listing.token "127.0.0.1" p = "127.0.0.1:" +:+ p +:+ " (LISTEN)".
Proof. reflexivity. Qed.

Lemma token_wildcard p : listing.token "*" p = "*:" +:+ p +:+ " (LISTEN)".
Proof. reflexivity. Qed.

(** C5.  Let the ports of a non-empty list be online, so that the wait at
    the start of [testBindLoopback] returns, and let each have a listing
    that is not empty and is the same whenever it is read.  Then the
    test passes, that is ends with both subtests run and the failure flag
    clear, exactly when for every port the listing contains
    "127.0.0.1:<port> (LISTEN)" and does not contain "*:<port> (LISTEN)". *)
Theorem testBindLoopback_passes_iff
    (w : World) (t : T) (snapName : string)
    (ports : list string) (s : St) (o : string → string) :
  ports ≠ [] → st_failed s = false →
  (WaitServiceOnline w 61 (Some t) 60 ports s).1 = Ret None →
  (∀ n p, p ∈ ports → listing.out w n p = o p) →
  (∀ p, p ∈ ports → o p ≠ "") →
  let run := testBindLoopback w t snapName ports s in
  run.1 = Ret tt
  ∧ (st_failed run.2 = false ↔
     ∀ p, p ∈ ports →
       strings.Contains (o p) ("127.0.0.1:" +:+ p +:+ " (LISTEN)") = true
       ∧ strings.Contains (o p) ("*:" +:+ p +:+ " (LISTEN)") = false).
Proof.
  intros Hne Hs Hwait Hout Ho run. subst run. unfold testBindLoopback. munfold.
  pose proof (waitLoop_failed w 61 (Some t) 60 1 ports None s) as Hflag.
  unfold WaitServiceOnline in Hwait |- *.
  destruct (waitLoop w 61 (Some t) 60 1 ports None s) as [r s1].
  simpl in Hwait, Hflag. subst r. rewrite Hs in Hflag. specialize (Hflag ltac:(done)).
  destruct (requireListenAllInterfaces_listed w
              (mkT (Name t +:+ "/" +:+ strings.ReplaceAll
                      "ports not listening on all interfaces" " " "_"))
              false ports (set_failed false s1) o Hne Hout Ho)
    as (r2 & s2 & Hrun2 & Hr2 & Hf2).
  rewrite (Run_returns t _ _ s1 r2 s2 Hrun2 Hr2).
  destruct (requireListenLoopback_listed w
              (mkT (Name t +:+ "/" +:+ strings.ReplaceAll
                      "ports listening on localhost" " " "_"))
              ports (set_failed false (set_failed (st_failed s1 || st_failed s2) s2))
              o Hne Hout Ho)
    as (r3 & s3 & Hrun3 & Hr3 & Hf3).
  rewrite (Run_returns t _ _ _ r3 s3 Hrun3 Hr3).
  split; [done|]. cbn [snd st_failed set_failed] in *.
  rewrite Hflag, Hf2, Hf3. cbn [orb xorb].
  rewrite !orb_false_iff, <- !not_true_iff_false, !existsb_exists.
  split.
  - intros [H2 H3] p Hp. apply list_elem_of_In in Hp.
    rewrite <- token_loopback, <- token_wildcard. split.
    + destruct (strings.Contains (o p) (listing.token "127.0.0.1" p)) eqn:E; [done|].
      exfalso. apply H3. exists p. split; [done|]. by rewrite E.
    + destruct (strings.Contains (o p) (listing.token "*" p)) eqn:E; [|done].
      exfalso. apply H2. exists p. by split.
  - intros H. split; intros (p & Hp & Hbad); apply list_elem_of_In in Hp;
      destruct (H p Hp) as [H1 H0];
      rewrite <- token_loopback in H1; rewrite <- token_wildcard in H0.
    + by rewrite H0 in Hbad.
    + by rewrite H1 in Hbad.
Qed.

Lemma testBindLoopback_passes_iff_witness :
  st_failed (testBindLoopback world_8080_closed T1 "chip-tool" ["9090"] st0).2 = false.
Proof.
  pose proof (testBindLoopback_passes_iff world_8080_closed T1 "chip-tool" ["9090"] st0
                (λ _, "chip-tool 812 root 7u IPv4 TCP 127.0.0.1:9090 (LISTEN)")) as H.
  destruct H as [_ H].
  - discriminate.
  - reflexivity.
  - reflexivity.
  - intros n p Hp. apply list_elem_of_singleton in Hp as ->. reflexivity.
  - intros p _. discriminate.
  - apply H. intros p Hp. apply list_elem_of_singleton in Hp as ->.
    split; reflexivity.
Defined.

(** C6.  In both binding checks, whatever binding is asked for: when the
    loop reaches a port whose listing is empty, the ports before it having
    been listed, the check stops the test at once with the failure flag
    set and "Port <port> is not open" as its last line; the ports after it
    are not listed any more. *)
Theorem empty_listing_is_fatal
    (w : World) (t : T) (mustListen : bool)
    (pre : list string) (p : string) (post : list string) (s : St) :
  (∀ j q, pre !! j = Some q → listing.out w (length (st_execs s) + j) q ≠ "") →
  listing.out w (length (st_execs s) + length pre) p = "" →
  (∃ s', requireListenAllInterfaces w t mustListen (pre ++ p :: post) s = (Goexit, s')
         ∧ st_failed s' = true
         ∧ last (st_tlog s') = Some ("Port " +:+ p +:+ " is not open")
         ∧ st_execs s' = st_execs s ++ map listing.command (pre ++ [p]))
  ∧ (∃ s', requireListenLoopback w t (pre ++ p :: post) s = (Goexit, s')
         ∧ st_failed s' = true
         ∧ last (st_tlog s') = Some ("Port " +:+ p +:+ " is not open")
         ∧ st_execs s' = st_execs s ++ map listing.command (pre ++ [p])).
Proof.
  intros Hpre Hp. split.
  - rewrite requireListenAllInterfaces_range by (by destruct pre).
    destruct (range_until_unlisted w "*"
                (λ q x, xorb mustListen (strings.Contains x (listing.token "*" q)))
                _ _ (checkAllInterfaces_run w t mustListen)
                pre s p post Hpre Hp) as (s' & -> & H).
    by exists s'.
  - rewrite requireListenLoopback_range by (by destruct pre).
    destruct (range_until_unlisted w "127.0.0.1"
                (λ q x, negb (strings.Contains x (listing.token "127.0.0.1" q)))
                _ _ (checkLoopback_run w t)
                pre s p post Hpre Hp) as (s' & -> & H).
    by exists s'.
Qed.

Lemma empty_listing_is_fatal_witness :
  (requireListenAllInterfaces world_8080_closed T1 false ["9090"; "8080"; "7070"] st0).1
  = Goexit
  ∧ (requireListenLoopback world_8080_closed T1 ["9090"; "8080"; "7070"] st0).1 = Goexit.
Proof.
  pose proof (empty_listing_is_fatal world_8080_closed T1 false ["9090"] "8080" ["7070"] st0)
    as H.
  destruct H as [(s1 & H1 & _) (s2 & H2 & _)].
  - intros j q Hj. destruct j as [|j]; [|discriminate]. injection Hj as <-.
    vm_compute. discriminate.
  - reflexivity.
  - split.
    + change (["9090"; "8080"; "7070"]) with (["9090"] ++ "8080" :: ["7070"]).
      by rewrite H1.
    + change (["9090"; "8080"; "7070"]) with (["9090"] ++ "8080" :: ["7070"]).
      by rewrite H2.
Defined.

Section LogProofs.
Variable w : World.

Lemma logLoop_attempt fuel t snap expectedLog since maxRetry i s :
  i ≤ maxRetry →
  logLoop w (S fuel) t snap expectedLog since maxRetry i s
  = let s1 := attempts.after s 1 [attemptMessage i maxRetry expectedLog] (st_failed s) in
    if strings.Contains (SnapLogs_text w (st_snaplogs s) since snap) expectedLog
    then (Ret tt, add_tlog ("Found expected content in logs: " +:+ expectedLog) s1)
    else logLoop w fuel t snap expectedLog since maxRetry (int_incr i) s1.
Proof.
  intros Hi. cbn [logLoop]. destruct (Z.leb_spec i maxRetry) as [_|]; [|lia].
  munfold. unfold time.Sleep, Logf, Log, SnapLogs. cbn [st_snaplogs add_tlog add_slept].
  replace (add_snaplogs (add_tlog _ (add_slept 1 s)))
    with (attempts.after s 1 [attemptMessage i maxRetry expectedLog] (st_failed s)).
  2:{ unfold attempts.after, add_snaplogs, add_tlog, add_slept. simpl. f_equal. lia. }
  by destruct (strings.Contains _ _).
Qed.

Lemma logLoop_exit fuel t snap expectedLog since maxRetry i s :
  maxRetry < i →
  logLoop w (S fuel) t snap expectedLog since maxRetry i s
  = (Goexit,
     attempts.after s 0 ["Time out: reached max " +:+ fmt.d maxRetry +:+ " retries."] true).
Proof.
  intros Hi. cbn [logLoop]. destruct (Z.leb_spec i maxRetry) as [|_]; [lia|].
  unfold Fatalf, Fatal, FailNow, Log. munfold.
  unfold attempts.after, set_failed, add_tlog. simpl. by rewrite !Nat.add_0_r.
Qed.

Lemma after_after s k1 l1 f1 k2 l2 f2 :
  attempts.after (attempts.after s k1 l1 f1) k2 l2 f2
  = attempts.after s (k1 + k2) (l1 ++ l2) f2.
Proof. unfold attempts.after. simpl. by rewrite !Nat.add_assoc, app_assoc. Qed.

Lemma logLoop_found K : ∀ fuel t snap expectedLog since maxRetry i s,
  (K < fuel)%nat → int_min ≤ i → i + Z.of_nat K ≤ maxRetry → maxRetry ≤ int_max →
  (∀ k, (k < K)%nat →
     strings.Contains (SnapLogs_text w (st_snaplogs s + k) since snap) expectedLog = false) →
  strings.Contains (SnapLogs_text w (st_snaplogs s + K) since snap) expectedLog = true →
  logLoop w fuel t snap expectedLog since maxRetry i s
  = (Ret tt,
     attempts.after s (S K)
       (attempts.lines maxRetry i expectedLog (S K)
          ++ ["Found expected content in logs: " +:+ expectedLog])
       (st_failed s)).
Proof.
  induction K as [|K IH]; intros fuel t snap expectedLog since maxRetry i s
    Hfuel Hlo Hi Hmax Hnot Hfound;
    (destruct fuel as [|fuel]; [lia|]); rewrite logLoop_attempt by lia; cbv zeta.
  - rewrite Nat.add_0_r in Hfound. rewrite Hfound.
    unfold add_tlog, attempts.after. simpl. by rewrite <- app_assoc.
  - pose proof (Hnot 0%nat ltac:(lia)) as H0. rewrite Nat.add_0_r in H0. rewrite H0.
    rewrite int_incr_in_range by lia.
    rewrite IH; try lia.
    + rewrite after_after. cbn [attempts.after st_failed]. f_equal.
    + intros k Hk. cbn [attempts.after st_snaplogs].
      replace (st_snaplogs s + 1 + k)%nat with (st_snaplogs s + S k)%nat by lia.
      apply Hnot. lia.
    + cbn [attempts.after st_snaplogs].
      by replace (st_snaplogs s + 1 + K)%nat with (st_snaplogs s + S K)%nat by lia.
Qed.

Lemma logLoop_timeout R : ∀ fuel t snap expectedLog since maxRetry i s,
  (R < fuel)%nat → int_min ≤ i → R = Z.to_nat (maxRetry + 1 - i) → maxRetry < int_max →
  (∀ k, (k < R)%nat →
     strings.Contains (SnapLogs_text w (st_snaplogs s + k) since snap) expectedLog = false) →
  logLoop w fuel t snap expectedLog since maxRetry i s
  = (Goexit,
     attempts.after s R
       (attempts.lines maxRetry i expectedLog R
          ++ ["Time out: reached max " +:+ fmt.d maxRetry +:+ " retries."])
       true).
Proof.
  induction R as [|R IH]; intros fuel t snap expectedLog since maxRetry i s
    Hfuel Hlo HR Hmax Hnot; (destruct fuel as [|fuel]; [lia|]).
  - by rewrite logLoop_exit by lia.
  - rewrite logLoop_attempt by lia; cbv zeta.
    pose proof (Hnot 0%nat ltac:(lia)) as H0. rewrite Nat.add_0_r in H0. rewrite H0.
    rewrite int_incr_in_range by lia.
    rewrite IH; try lia.
    + by rewrite after_after.
    + intros k Hk. cbn [attempts.after st_snaplogs].
      replace (st_snaplogs s + 1 + k)%nat with (st_snaplogs s + S k)%nat by lia.
      apply Hnot. lia.
Qed.
End LogProofs.

(** Among the first [n] readings either none matches or there is a first
    one that does. *)
Lemma first_match (f : nat → bool) n :
  (∀ k, (k < n)%nat → f k = false)
  ∨ ∃ K, (K < n)%nat ∧ (∀ k, (k < K)%nat → f k = false) ∧ f K = true.
Proof.
  induction n as [|n [IH|(K & HK & Hnot & Hf)]].
  - left. lia.
  - destruct (f n) eqn:E.
    + right. exists n. split; [lia|]. split; [|done]. intros k Hk. apply IH. lia.
    + left. intros k Hk. destruct (decide (k = n)) as [->|]; [done|]. apply IH. lia.
  - right. exists K. split; [lia|]. done.
Qed.

(** C7.  [WaitForLogMessage] sleeps a second, logs a line and reads the
    journal once per attempt.  It returns at the first attempt whose reading
    contains [expectedLog], having made no attempt after it; when none of
    ten attempts finds it, it stops the test with "Time out: reached max 10
    retries." after exactly ten attempts.  In every run it reads the journal
    at most ten times, and it returns only after a reading that contains
    [expectedLog]. *)
Theorem WaitForLogMessage_attempts
    (w : World) (t : T) (snap expectedLog : string) (since : Z) (s : St) :
  let found k :=
    strings.Contains (SnapLogs_text w (st_snaplogs s + k) since snap) expectedLog in
  let run := WaitForLogMessage w t snap expectedLog since s in
  (∀ K, (K < 10)%nat → (∀ k, (k < K)%nat → found k = false) → found K = true →
     run = (Ret tt,
            attempts.after s (S K)
              (attempts.lines 10 1 expectedLog (S K)
                 ++ ["Found expected content in logs: " +:+ expectedLog])
              (st_failed s)))
  ∧ ((∀ k, (k < 10)%nat → found k = false) →
     run = (Goexit,
            attempts.after s 10
              (attempts.lines 10 1 expectedLog 10 ++ ["Time out: reached max 10 retries."])
              true))
  ∧ (st_snaplogs run.2 ≤ st_snaplogs s + 10)%nat
  ∧ (run.1 = Ret tt → ∃ K, (K < 10)%nat ∧ found K = true)
  ∧ (run.1 = Ret tt ∨ run.1 = Goexit).
Proof.
  intros found run.
  assert (Hfound : ∀ K, (K < 10)%nat → (∀ k, (k < K)%nat → found k = false) →
            found K = true →
            run = (Ret tt,
                   attempts.after s (S K)
                     (attempts.lines 10 1 expectedLog (S K)
                        ++ ["Found expected content in logs: " +:+ expectedLog])
                     (st_failed s))).
  { intros K HK Hnot HfK. subst run. unfold WaitForLogMessage.
    apply logLoop_found; try done; unfold int_min, int_max; lia. }
  assert (Hnone : (∀ k, (k < 10)%nat → found k = false) →
            run = (Goexit,
                   attempts.after s 10
                     (attempts.lines 10 1 expectedLog 10
                        ++ ["Time out: reached max 10 retries."])
                     true)).
  { intros Hnot. subst run. unfold WaitForLogMessage.
    apply (logLoop_timeout w 10); try done; unfold int_min, int_max; lia. }
  split; [exact Hfound|]. split; [exact Hnone|].
  destruct (first_match found 10) as [Hnot|(K & HK & Hnot & HfK)].
  - rewrite (Hnone Hnot). cbn [fst snd attempts.after st_snaplogs].
    split; [lia|]. split; [done|]. by right.
  - rewrite (Hfound K HK Hnot HfK). cbn [fst snd attempts.after st_snaplogs].
    split; [lia|]. split; [|by left]. intros _. by exists K.
Qed.

Lemma WaitForLogMessage_attempts_witness :
  WaitForLogMessage world_8080_closed T1 "chip-tool" "Server Listening" 0 st0
  = (Ret tt,
     mkSt [] [] 3
       ["Retry 1/10: Waiting for expected content in logs: Server Listening";
        "Retry 2/10: Waiting for expected content in logs: Server Listening";
        "Retry 3/10: Waiting for expected content in logs: Server Listening";
        "Found expected content in logs: Server Listening"]
       [] false 3 ∅ ∅).
Proof.
  refine (proj1 (WaitForLogMessage_attempts world_8080_closed T1 "chip-tool"
                   "Server Listening" 0 st0) 2%nat _ _ _).
  - lia.
  - intros k Hk. assert (k = 0 ∨ k = 1)%nat as [-> | ->] by lia; reflexivity.
  - reflexivity.
Defined.

Lemma replace_from_byte old new s :
  strings.replace_from 0 s (String old "") (String new "") = replace_byte old new s.
Proof.
  induction s as [|c s IH]; [done|].
  cbn [strings.replace_from replace_byte String.prefix String.length Nat.pred].
  destruct (ascii_dec old c) as [->|Hne].
  - rewrite decide_True by done. simpl. destruct s; by rewrite IH.
  - rewrite decide_False by congruence. by rewrite IH.
Qed.

Lemma ReplaceAll_slash s : strings.ReplaceAll s "/" "-" = replace_byte "/" "-" s.
Proof. apply replace_from_byte. Qed.

(** C9.  When the directory can be made and the file written,
    [WriteLogFile] under a test named [T] returns nil and leaves [content]
    as the content of logs/<T'>-<label>.log, where [T'] is [T] with every
    "/" replaced by "-"; no other file changes.  For the test T1 and the
    label foo the path is logs/T1-foo.log. *)
Theorem WriteLogFile_writes
    (w : World) (t : T) (label content : string) (s : St) :
  let path := "logs/" +:+ replace_byte "/" "-" (Name t) +:+ "-" +:+ label +:+ ".log" in
  os_MkdirAll w "logs" = None → os_WriteFile w path = None →
  let run := WriteLogFile w (Some t) label content s in
  run = (Ret None, put_file path content (add_dir "logs" s))
  ∧ st_files run.2 !! path = Some content
  ∧ (∀ other, other ≠ path → st_files run.2 !! other = st_files s !! other)
  ∧ (Name t = "T1" → label = "foo" → path = "logs/T1-foo.log").
Proof.
  intros path Hmk Hwr run.
  assert (run = (Ret None, put_file path content (add_dir "logs" s))) as ->.
  { subst run. unfold WriteLogFile, logFileName, MkdirAll, WriteFile. munfold.
    rewrite Hmk, ReplaceAll_slash.
    change ("logs" +:+ "/" +:+ replace_byte "/" "-" (Name t) +:+ "-" +:+ label +:+ ".log")
      with path.
    by rewrite Hwr. }
  split; [done|]. cbn [snd put_file st_files]. split; [|split].
  - apply lookup_insert_eq.
  - intros other Hne. by apply lookup_insert_ne.
  - intros Ht Hl. subst path. by rewrite Ht, Hl.
Qed.

Lemma WriteLogFile_writes_witness :
  WriteLogFile world_8080_closed (Some T1) "foo" "bar" st0
  = (Ret None, mkSt [] [] 0 [] [] false 0 ({["logs"]} ∪ ∅) (<["logs/T1-foo.log" := "bar"]> ∅)).
Proof.
  refine (proj1 (WriteLogFile_writes world_8080_closed T1 "foo" "bar" st0 _ _));
    reflexivity.
Defined.

(** A boolean setting is read or makes [init] panic. *)
Lemma parse_step v :
  v ≠ "" →
  (∃ e, (strconv.ParseBool v).2 = Some e ∧ malformed v)
  ∨ ((strconv.ParseBool v).2 = None ∧ ¬ malformed v).
Proof.
  intros Hne. unfold malformed. destruct (strconv.ParseBool v).2 as [e|].
  - left. by exists e.
  - right. split; [done|]. by intros [_ H].
Qed.

(** C8.  In both packages [init], run on the defaults, panics exactly when
    a boolean variable is set to a non-empty text that [strconv.ParseBool]
    rejects, whatever the text variables hold; when it does not panic,
    every setting has the value of its variable if that is set and not
    empty, and its default otherwise. *)
Theorem init_overrides_defaults (w : World) :
  let getenv := os_Getenv w in
  ((∃ e, utils.init w utils.defaults = InitPanic e)
     ↔ malformed (getenv "FULL_CONFIG_TEST") ∨ malformed (getenv "SKIP_TEARDOWN_REMOVAL"))
  ∧ (∀ g, utils.init w utils.defaults = Done g →
       ServiceChannel g
         = override (getenv "SERVICE_CHANNEL") (getenv "SERVICE_CHANNEL") "latest/edge"
       ∧ LocalServiceSnapPath g
         = override (getenv "LOCAL_SERVICE_SNAP") (getenv "LOCAL_SERVICE_SNAP") ""
       ∧ FullConfigTest g
         = override (getenv "FULL_CONFIG_TEST")
             (strconv.ParseBool (getenv "FULL_CONFIG_TEST")).1 false
       ∧ SkipTeardownRemoval g
         = override (getenv "SKIP_TEARDOWN_REMOVAL")
             (strconv.ParseBool (getenv "SKIP_TEARDOWN_REMOVAL")).1 false)
  ∧ ((∃ e, env.init w env.defaults = InitPanic e) ↔ malformed (getenv "TEARDOWN"))
  ∧ (∀ g, env.init w env.defaults = Done g →
       env.SnapChannel g
         = override (getenv "SNAP_CHANNEL") (getenv "SNAP_CHANNEL") "latest/edge"
       ∧ env.SnapPath g = override (getenv "SNAP_PATH") (getenv "SNAP_PATH") ""
       ∧ env.Teardown g
         = override (getenv "TEARDOWN") (strconv.ParseBool (getenv "TEARDOWN")).1 true).
Proof.
  intros getenv.
  assert (Hutils :
    match utils.init w utils.defaults with
    | InitPanic _ =>
        malformed (getenv "FULL_CONFIG_TEST") ∨ malformed (getenv "SKIP_TEARDOWN_REMOVAL")
    | Done g =>
        ¬ (malformed (getenv "FULL_CONFIG_TEST") ∨ malformed (getenv "SKIP_TEARDOWN_REMOVAL"))
        ∧ g = utils.mkGlobals
            (override (getenv "SERVICE_CHANNEL") (getenv "SERVICE_CHANNEL") "latest/edge")
            (override (getenv "LOCAL_SERVICE_SNAP") (getenv "LOCAL_SERVICE_SNAP") "")
            (override (getenv "FULL_CONFIG_TEST")
               (strconv.ParseBool (getenv "FULL_CONFIG_TEST")).1 false)
            (override (getenv "SKIP_TEARDOWN_REMOVAL")
               (strconv.ParseBool (getenv "SKIP_TEARDOWN_REMOVAL")).1 false)
    end).
  { unfold utils.init, utils.defaults, serviceChannelEnv, localServiceSnapEnv,
      fullConfigTestEnv, skipTeardownRemovalEnv, override, malformed, mbind, Init_bind.
    fold getenv. cbv zeta.
    repeat case_decide; try done;
      cbn [ServiceChannel LocalServiceSnapPath FullConfigTest SkipTeardownRemoval];
      repeat match goal with
      | |- context [strconv.ParseBool ?v] =>
          destruct (strconv.ParseBool v) as [? [?|]]
      end;
      cbn [ServiceChannel LocalServiceSnapPath FullConfigTest SkipTeardownRemoval fst snd];
      intuition congruence. }
  assert (Henv :
    match env.init w env.defaults with
    | InitPanic _ => malformed (getenv "TEARDOWN")
    | Done g =>
        ¬ malformed (getenv "TEARDOWN")
        ∧ g = env.mkGlobals
            (override (getenv "SNAP_CHANNEL") (getenv "SNAP_CHANNEL") "latest/edge")
            (override (getenv "SNAP_PATH") (getenv "SNAP_PATH") "")
            (override (getenv "TEARDOWN") (strconv.ParseBool (getenv "TEARDOWN")).1 true)
    end).
  { unfold env.init, env.loadEnvVars, env.defaults, env.envSnapChannel, env.envSnapPath,
      env.envTeardown, override, malformed, mbind, Init_bind.
    fold getenv. cbv zeta.
    repeat case_decide; try done;
      cbn [env.snapChannel env.snapPath env.teardown];
      repeat match goal with
      | |- context [strconv.ParseBool ?v] =>
          destruct (strconv.ParseBool v) as [? [?|]]
      end;
      cbn [env.snapChannel env.snapPath env.teardown fst snd];
      intuition congruence. }
  split; [|split; [|split]].
  - destruct (utils.init w utils.defaults) as [g|e].
    + split; [by intros [e He] | by intros H; destruct Hutils as [Hn _]].
    + split; [done | by exists e].
  - intros g Hg. rewrite Hg in Hutils. destruct Hutils as [_ ->]. done.
  - destruct (env.init w env.defaults) as [g|e].
    + split; [by intros [e He] | by intros H; destruct Henv as [Hn _]].
    + split; [done | by exists e].
  - intros g Hg. rewrite Hg in Henv. destruct Henv as [_ ->]. done.
Qed.

Lemma init_overrides_defaults_witness :
  ∃ e, utils.init (world_env "maybe") utils.defaults = InitPanic e.
Proof.
  destruct (init_overrides_defaults (world_env "maybe")) as [[_ H] _].
  apply H. left. split; [discriminate | vm_compute; discriminate].
Defined.

(** * Further properties of the code *)

Section WaitCases.
Variable w : World.

(** A run with enough fuel either finds a first round that empties the
    pending list, or uses up the budget. *)
Lemma waitLoop_cases fuel t maxRetry i l err s :
  let R := Z.to_nat (maxRetry + 1 - i) in
  let n := length (st_dials s) in
  int_min ≤ i → maxRetry < int_max → (R < fuel)%nat →
  (∃ K, (K < R)%nat
     ∧ (∀ k, (1 ≤ k ≤ K)%nat → pending w n l k ≠ [])
     ∧ pending w n l (S K) = []
     ∧ waitLoop w fuel t maxRetry i l err s
       = (Ret None,
          grow s (map addr (dial_trace w n l (S K)))
            (to_tlog t (retry_log w maxRetry i n l (S K)))
            (to_stdlog t (retry_log w maxRetry i n l (S K)))
            K (st_failed s)))
  ∨ ((∀ k, (1 ≤ k ≤ R)%nat → pending w n l k ≠ [])
     ∧ waitLoop w fuel t maxRetry i l err s
       = (match t with
          | Some _ => Goexit
          | None => Ret (Some (timeoutError maxRetry (err_after w n l err R)))
          end,
          grow s (map addr (dial_trace w n l R))
            (to_tlog t (retry_log w maxRetry i n l R
                          ++ [timeoutError maxRetry (err_after w n l err R)]))
            (to_stdlog t (retry_log w maxRetry i n l R))
            R (match t with Some _ => true | None => st_failed s end))).
Proof.
  intros R n Hlo Hmax Hfuel.
  destruct (first_match (λ k, bool_decide (pending w n l (S k) = [])) R)
    as [Hnone|(K & HK & Hnot & Hemp)].
  - right.
    assert (Hne : ∀ k, (1 ≤ k ≤ R)%nat → pending w n l k ≠ []).
    { intros [|k] Hk; [lia|]. specialize (Hnone k ltac:(lia)).
      by apply bool_decide_eq_false in Hnone. }
    split; [exact Hne|]. by apply waitLoop_timeout.
  - left. exists K. apply bool_decide_eq_true in Hemp.
    assert (Hne : ∀ k, (1 ≤ k ≤ K)%nat → pending w n l k ≠ []).
    { intros [|k] Hk; [lia|]. specialize (Hnot k ltac:(lia)).
      by apply bool_decide_eq_false in Hnot. }
    split; [exact HK|]. split; [exact Hne|]. split; [exact Hemp|].
    apply waitLoop_success; try done; subst R; lia.
Qed.

Lemma length_still_closed l : ∀ n, (length (still_closed w n l) ≤ length l)%nat.
Proof. intros n. apply sublist_length, still_closed_sublist. Qed.

Lemma length_dial_trace k : ∀ n l, (length (dial_trace w n l k) ≤ k * length l)%nat.
Proof.
  induction k as [|k IH]; intros n l; [done|].
  cbn [dial_trace]. rewrite length_app.
  specialize (IH (n + length l)%nat (still_closed w n l)).
  pose proof (length_still_closed l n). nia.
Qed.

(** What a run never touches, whatever the fuel and the budget. *)
Lemma waitLoop_frame fuel : ∀ t maxRetry i l err s,
  let s' := (waitLoop w fuel t maxRetry i l err s).2 in
  st_execs s' = st_execs s ∧ st_snaplogs s' = st_snaplogs s
  ∧ st_dirs s' = st_dirs s ∧ st_files s' = st_files s
  ∧ (t = None → st_tlog s' = st_tlog s ∧ st_failed s' = st_failed s)
  ∧ (t ≠ None → st_stdlog s' = st_stdlog s).
Proof.
  induction fuel as [|fuel IH]; intros t maxRetry i l err s; cbv zeta.
  - by repeat split.
  - destruct (Z.le_gt_cases i maxRetry) as [Hi|Hi].
    + rewrite waitLoop_round by done. cbv zeta.
      destruct (still_closed w (length (st_dials s)) l) eqn:Hsc.
      * cbn [snd grow st_execs st_snaplogs st_dirs st_files st_tlog st_failed st_stdlog].
        split; [done|]. split; [done|]. split; [done|]. split; [done|]. split.
        -- intros ->. simpl. by rewrite app_nil_r.
        -- intros Ht. destruct t; [|done]. simpl. by rewrite app_nil_r.
      * rewrite add_slept_grow.
        destruct (IH t maxRetry (int_incr i)
                    (still_closed w (length (st_dials s)) l)
                    (last_err w (length (st_dials s)) l err)
                    (grow s (map addr l) (to_tlog t [retryMessage i maxRetry l])
                       (to_stdlog t [retryMessage i maxRetry l]) (0 + 1) (st_failed s)))
          as (H1 & H2 & H3 & H4 & H5 & H6).
        rewrite <- Hsc. rewrite H1, H2, H3, H4.
        split; [done|]. split; [done|]. split; [done|]. split; [done|]. split.
        -- intros ->. destruct (H5 eq_refl) as [-> ->]. simpl. by rewrite app_nil_r.
        -- intros Ht. rewrite (H6 Ht). destruct t; [|done]. simpl. by rewrite app_nil_r.
    + rewrite waitLoop_exit by done.
      cbn [snd grow st_execs st_snaplogs st_dirs st_files st_tlog st_failed st_stdlog].
      split; [done|]. split; [done|]. split; [done|]. split; [done|]. split.
      * intros ->. simpl. by rewrite app_nil_r.
      * intros Ht. destruct t; [|done]. simpl. by rewrite app_nil_r.
Qed.

Lemma int_wrap_range z : int_min ≤ int_wrap z ≤ int_max.
Proof.
  unfold int_wrap, int_min, int_max.
  pose proof (Z.mod_pos_bound (z + 2 ^ 63) (2 ^ 64) ltac:(lia)). lia.
Qed.

(** At the largest budget the counter never exceeds it. *)
Lemma waitLoop_never_ends fuel : ∀ t i l err s p,
  i ≤ int_max → never_opens w p → p ∈ l →
  (waitLoop w fuel t int_max i l err s).1 = OutOfFuel.
Proof.
  induction fuel as [|fuel IH]; intros t i l err s p Hi Hp Hin; [done|].
  rewrite waitLoop_round by done. cbv zeta.
  pose proof (never_opens_still_closed w p l (length (st_dials s)) Hp Hin) as Hin'.
  destruct (still_closed w (length (st_dials s)) l) as [|q l'] eqn:Hsc.
  { by apply elem_of_nil in Hin'. }
  rewrite <- Hsc in *. apply (IH _ _ _ _ _ p); [|done..].
  apply int_wrap_range.
Qed.
End WaitCases.

(** X3.  A budget of zero or less leaves no round: [WaitServiceOnline] dials
    nothing and logs no round, and reports the time-out at once, as a fatal
    failure of [t] or as the returned error, also when every port is open
    or the list is empty. *)
Theorem WaitServiceOnline_without_budget
    (w : World) (fuel : nat) (t : option T) (maxRetry : Z)
    (ports : list string) (s : St) :
  maxRetry ≤ 0 →
  let e := "Time out: reached max " +:+ fmt.d maxRetry +:+ " retries." in
  WaitServiceOnline w (S fuel) t maxRetry ports s
  = (match t with Some _ => Goexit | None => Ret (Some e) end,
     grow s [] (to_tlog t [e]) [] 0 (match t with Some _ => true | None => st_failed s end)).
Proof.
  intros Hmax e. unfold WaitServiceOnline. by rewrite waitLoop_exit by lia.
Qed.

Lemma WaitServiceOnline_without_budget_witness :
  WaitServiceOnline world_8080_closed 1 (Some T1) 0 ["9090"] st0
  = (Goexit, mkSt [] [] 0 ["Time out: reached max 0 retries."] [] true 0 ∅ ∅).
Proof.
  refine (WaitServiceOnline_without_budget world_8080_closed 0 (Some T1) 0 ["9090"] st0 _).
  lia.
Defined.

(** X4.  With a budget below the largest [int], [WaitServiceOnline] ends
    after at most [maxRetry] rounds: it returns nil, returns the time-out
    error or stops the test, having slept at most [maxRetry] seconds and
    dialed at most [maxRetry] times the number of ports. *)
Theorem WaitServiceOnline_bounded
    (w : World) (fuel : nat) (t : option T) (maxRetry : Z)
    (ports : list string) (s : St) :
  maxRetry < int_max → (Z.to_nat maxRetry < fuel)%nat →
  let R := Z.to_nat maxRetry in
  let run := WaitServiceOnline w fuel t maxRetry ports s in
  (run.1 = Ret None ∨ run.1 = Goexit ∨ ∃ e, run.1 = Ret (Some e))
  ∧ (st_slept run.2 ≤ st_slept s + R)%nat
  ∧ (length (st_dials run.2) ≤ length (st_dials s) + R * length ports)%nat
  ∧ (run.1 = Ret None → (st_slept run.2 < st_slept s + R)%nat).
Proof.
  intros Hmax Hfuel R run. subst run. unfold WaitServiceOnline.
  destruct (waitLoop_cases w fuel t maxRetry 1 ports None s) as
    [(K & HK & _ & _ & ->)|[_ ->]];
    try (unfold int_min; lia); try (by replace (maxRetry + 1 - 1) with maxRetry by lia).
  - replace (maxRetry + 1 - 1) with maxRetry in HK by lia. fold R in HK.
    cbn [fst snd grow st_slept st_dials]. rewrite length_app, length_map.
    pose proof (length_dial_trace w (S K) (length (st_dials s)) ports).
    split; [by left|]. split; [lia|]. split; [nia|]. intros _. lia.
  - replace (maxRetry + 1 - 1) with maxRetry by lia. fold R.
    cbn [fst snd grow st_slept st_dials]. rewrite length_app, length_map.
    pose proof (length_dial_trace w R (length (st_dials s)) ports).
    split; [destruct t; [by right; left | right; right; by eexists]|].
    split; [lia|]. split; [lia|]. by destruct t.
Qed.

Lemma WaitServiceOnline_bounded_witness :
  (st_slept (WaitServiceOnline world_late_start 61 None 60 ["5550"; "9090"] st0).2
   ≤ 0 + 60)%nat.
Proof.
  refine (proj1 (proj2 (WaitServiceOnline_bounded world_late_start 61 None 60
                          ["5550"; "9090"] st0 _ _))).
  - unfold int_max. lia.
  - simpl. lia.
Defined.

(** X5.  Whatever its arguments, [WaitServiceOnline] runs no command, reads
    no journal and writes no file.  Without a [t] it writes to the standard
    logger only and leaves the log and the failure flag of the running test
    alone; with a [t] it writes nothing to the standard logger. *)
Theorem WaitServiceOnline_frame
    (w : World) (fuel : nat) (t : option T) (maxRetry : Z)
    (ports : list string) (s : St) :
  let s' := (WaitServiceOnline w fuel t maxRetry ports s).2 in
  st_execs s' = st_execs s ∧ st_snaplogs s' = st_snaplogs s
  ∧ st_dirs s' = st_dirs s ∧ st_files s' = st_files s
  ∧ (t = None → st_tlog s' = st_tlog s ∧ st_failed s' = st_failed s)
  ∧ (t ≠ None → st_stdlog s' = st_stdlog s).
Proof. apply waitLoop_frame. Qed.

(** X6.  With the largest [int] as budget the counter [i] wraps around
    instead of passing the budget: as long as one port never opens, the loop
    of [WaitServiceOnline] does not end, whatever the number of rounds it is
    given. *)
Theorem WaitServiceOnline_largest_budget
    (w : World) (fuel : nat) (t : option T)
    (ports : list string) (p : string) (s : St) :
  p ∈ ports → never_opens w p →
  (WaitServiceOnline w fuel t int_max ports s).1 = OutOfFuel.
Proof.
  intros Hin Hp. unfold WaitServiceOnline.
  apply (waitLoop_never_ends w fuel t 1 ports None s p); [|done..].
  unfold int_max. lia.
Qed.

Lemma WaitServiceOnline_largest_budget_witness :
  (WaitServiceOnline world_8080_closed 25 None int_max ["8080"] st0).1 = OutOfFuel.
Proof.
  refine (WaitServiceOnline_largest_budget world_8080_closed 25 None ["8080"] "8080" st0 _ _).
  - apply list_elem_of_here.
  - intros n. reflexivity.
Defined.

(** ** The ports in the log *)

Lemma append_assoc_str (a b c : string) : (a +:+ b) +:+ c = a +:+ b +:+ c.
Proof.
  induction a as [|x a IH]; [done|].
  change (String x ((a +:+ b) +:+ c) = String x (a +:+ b +:+ c)). by rewrite IH.
Qed.

Lemma append_nil_r_str (a : string) : a +:+ "" = a.
Proof.
  induction a as [|x a IH]; [done|].
  change (String x (a +:+ "") = String x a). by rewrite IH.
Qed.

Lemma concat_names (f : string → string) (sep : string) (l : list string) (p : string) :
  (∀ q, ∃ b, f q = q +:+ b) → p ∈ l →
  ∃ a b, String.concat sep (map f l) = a +:+ p +:+ b.
Proof.
  intros Hf. induction l as [|q l IH]; intros Hin.
  { by apply elem_of_nil in Hin. }
  change (map f (q :: l)) with (f q :: map f l).
  apply elem_of_cons in Hin as [->|Hin].
  - destruct (Hf q) as [b Hb]. destruct (map f l) as [|x xs].
    + exists "", b. by rewrite <- Hb.
    + exists "", (b +:+ sep +:+ String.concat sep (x :: xs)).
      change (String.concat sep (f q :: x :: xs))
        with (f q +:+ sep +:+ String.concat sep (x :: xs)).
      by rewrite Hb, append_assoc_str.
  - destruct (IH Hin) as (a & b & Hab).
    destruct (map f l) as [|x xs] eqn:Hm.
    + destruct l; [by apply elem_of_nil in Hin | done].
    + exists (f q +:+ sep +:+ a), b.
      change (String.concat sep (f q :: x :: xs))
        with (f q +:+ sep +:+ String.concat sep (x :: xs)).
      by rewrite Hab, !append_assoc_str.
Qed.

Lemma prettyPorts_names (l : list string) (p : string) :
  p ∈ l → ∃ a b, prettyPorts l = a +:+ p +:+ b.
Proof.
  unfold prettyPorts, strings.Join. apply concat_names.
  intros q. destruct (portService !! q) as [s|].
  - by eexists.
  - exists "". by rewrite append_nil_r_str.
Qed.

(** X2.  The line a round of [WaitServiceOnline] logs names every port that
    is pending when the round starts. *)
Theorem retryMessage_names_pending
    (i maxRetry : Z) (closedPorts : list string) (p : string) :
  p ∈ closedPorts →
  strings.Contains (retryMessage i maxRetry closedPorts) p = true.
Proof.
  intros Hin. apply Contains_occurs.
  destruct (prettyPorts_names closedPorts p Hin) as (a & b & Hab).
  unfold retryMessage. rewrite Hab.
  exists ("Retry " +:+ fmt.d i +:+ "/" +:+ fmt.d maxRetry +:+ ": Waiting for ports: " +:+ a), b.
  by rewrite !append_assoc_str.
Qed.

Lemma retryMessage_names_pending_witness :
  strings.Contains (retryMessage 2 60 ["5550"; "9090"]) "9090" = true.
Proof.
  refine (retryMessage_names_pending 2 60 ["5550"; "9090"] "9090" _).
  apply list_elem_of_further, list_elem_of_here.
Defined.
